(** * classify_puzzles.py: easy/hard classification of chess puzzles

    A shallow embedding of [get_maia_top_move] and [process_pgn_file].
    The script is orchestration over two libraries (python-chess and a
    UCI engine) and the file system.  Their answers are inputs of the
    model, gathered in [Env]; what the script does to them is recorded
    as a list of [Event]s, in program order.  The local variables of
    [process_pgn_file] are the fields of [State]. *)

From Stdlib Require Import Ascii.
From stdpp Require Import base strings pretty gmap list.

(** ** Values of the chess library *)

(** [chess.Move] is a dataclass of four fields, compared field by field
    by [==]. Squares and piece types are small integers. *)
Record Move := {
  from_square : nat;
  to_square : nat;
  promotion : option nat;
  drop : option nat
}.

Global Instance Move_eq_dec : EqDecision Move.
Proof. solve_decision. Defined.

(** Truth value of an [int], of an [Optional[int]], of a [str] and of an
    [Optional[str]], as [if x] and [not x] read them. *)
Definition int_bool (n : nat) : bool := negb (n =? 0).

Definition opt_int_bool (o : option nat) : bool :=
  match o with Some n => int_bool n | None => false end.

Definition str_bool (s : string) : bool :=
  match s with EmptyString => false | String _ _ => true end.

Definition opt_str_bool (o : option string) : bool :=
  match o with Some s => str_bool s | None => false end.

(** [Move.__bool__]: [bool(from_square or to_square or promotion or drop)];
    only the null move is false. *)
Definition Move_bool (m : Move) : bool :=
  int_bool (from_square m) || int_bool (to_square m)
  || opt_int_bool (promotion m) || opt_int_bool (drop m).

(** A board is known to the script only through the FEN it was built from. *)
Record Board := { board_fen : string }.

(** The dictionary returned by [engine.analyse]: the script reads the key
    ["pv"] only; [other_entries] counts the remaining keys. *)
Record InfoDict := {
  pv : option (list Move);
  other_entries : nat
}.

(** [if info]: a dictionary is true when it has a key. *)
Definition InfoDict_bool (i : InfoDict) : bool :=
  match pv i with Some _ => true | None => int_bool (other_entries i) end.

(** What [chess.pgn.read_game] hands over: the header mapping, the
    mainline and the parser's error list. *)
Record Game := {
  headers : gmap string string;
  mainline_moves : list Move;
  errors : list string
}.

(** ** Exceptions and the environment *)

(** The exception classes the handlers of the script tell apart; each
    carries its text. *)
Inductive Exn :=
| EngineTerminatedError (msg : string)
| FileNotFoundError (msg : string)
| OtherException (msg : string).

Definition exn_msg (e : Exn) : string :=
  match e with
  | EngineTerminatedError m | FileNotFoundError m | OtherException m => m
  end.

Inductive Result (A : Type) :=
| Return (a : A)
| Raise (e : Exn).
Arguments Return {A} a.
Arguments Raise {A} e.

(** The answers of the outside world.  The calls made while a record is
    handled are indexed by the number of that record
    ([processed_puzzles_count]), so that the same question may be answered
    differently at different times; [chess_Board], [board_san] and
    [string_exporter] are functions of their arguments alone.  Opening and
    writing an output file answer [None] on success and [Some msg] for an
    [IOError].  The calls the script does not guard ([print], [close],
    [quit], [san], the exporter) are taken to return, so the exceptions
    that reach the handlers of lines 177-181 come from opening the input
    file and from [read_game]. *)
Record Env := {
  popen_uci : Result unit;
  engine_configure : Result unit;
  open_input : string → Result (list (Result Game));
  string_exporter : Game → string;
  chess_Board : string → Result Board;
  engine_analyse : nat → Board → Result InfoDict;
  board_san : string → Move → string;
  open_output : nat → string → option string;
  file_write : nat → string → string → option string
}.

(** ** Events *)

Inductive Stream := Easy | Hard.

Global Instance Stream_eq_dec : EqDecision Stream.
Proof. solve_decision. Defined.

(** One constructor for each [print] of the two functions, with the values
    it interpolates. *)
Inductive Message :=
| MsgNoPv
| MsgAnalysisError (fen_str : string) (e : string)
| MsgStarting (input_pgn_filepath : string)
| MsgBatchSize (n : nat)
| MsgBaseName (s : Stream) (base_name : string)
| MsgEngineInitialized
| MsgEngineTerminated
| MsgEngineNotFound
| MsgEngineInitError (e : string)
| MsgEngineInitHint
| MsgProcessing (id : string)
| MsgSetUpWithoutFen (id : string)
| MsgFenNotFound (id : string)
| MsgNoSolution (id : string)
| MsgHeaders (h : gmap string string)
| MsgParserErrors (errs : list string)
| MsgNoTopMove (id : string)
| MsgEasy (id : string)
| MsgHard (id : string) (solution_san maia_san : string)
| MsgClosed (s : Stream) (name : string)
| MsgOpened (s : Stream) (name : string)
| MsgOpenError (s : Stream) (name : string) (e : string)
| MsgWriteError (s : Stream) (name : string) (e : string)
| MsgInputNotFound (input_pgn_filepath : string)
| MsgUnexpected (e : string)
| MsgEngineQuit
| MsgClosedFinal (s : Stream) (name : string)
| MsgSummaryProcessed (n : nat)
| MsgSummaryTotal (s : Stream) (n : nat)
| MsgSummaryBatches (s : Stream) (batch_num : nat) (base_name : string)
| MsgSummarySkipped (n : nat).

Inductive Event :=
| Print (m : Message)
| PopenUci
| Configure
| OpenInput (path : string)
| ReadGame
| CloseInput
| NewBoard (fen_str : string)
| Analyse (b : Board) (nodes : nat)
| Quit
| OpenOutput (s : Stream) (name : string) (ok : bool)
| WriteOutput (s : Stream) (name : string) (data : string) (ok : bool)
| CloseOutput (s : Stream) (name : string).

(** ** get_maia_top_move *)

Definition get_maia_top_move (env : Env) (k : nat) (fen_str : string)
  : option Move * list Event :=
  match chess_Board env fen_str with
  | Raise e =>
      (None, [NewBoard fen_str; Print (MsgAnalysisError fen_str (exn_msg e))])
  | Return board =>
      match engine_analyse env k board with
      | Raise e =>
          (None, [NewBoard fen_str; Analyse board 1;
                  Print (MsgAnalysisError fen_str (exn_msg e))])
      | Return info =>
          match InfoDict_bool info, pv info with
          | true, Some (m :: _) =>
              (Some m, [NewBoard fen_str; Analyse board 1])
          | _, _ =>
              (None, [NewBoard fen_str; Analyse board 1; Print MsgNoPv])
          end
      end
  end.

(** ** rsplit and the batch file names *)

(** [rsplit_last sep s] is the part of [s] before its last [sep], or
    [None] when [s] has no [sep]. *)
Fixpoint rsplit_last (sep : Ascii.ascii) (s : string) : option string :=
  match s with
  | EmptyString => None
  | String c s' =>
      match rsplit_last sep s' with
      | Some p => Some (String c p)
      | None => if Ascii.eqb c sep then Some EmptyString else None
      end
  end.

(** [path.rsplit('.', 1)[0]] *)
Definition rsplit_dot_0 (path : string) : string :=
  default path (rsplit_last "."%char path).

(** [f"{base_name}_batch_{batch_num}.pgn"] *)
Definition batch_filename (base_name : string) (batch_num : nat) : string :=
  base_name +:+ "_batch_" +:+ pretty batch_num +:+ ".pgn".

Definition newline : string := String (Ascii.ascii_of_nat 10) EmptyString.

(** ** The local variables of process_pgn_file *)

Definition PUZZLES_PER_BATCH : nat := 25.

(** The three variables the script keeps for each output stream:
    [easy_batch_num], [easy_puzzles_in_current_batch], [f_easy] and their
    [hard_] twins.  An open file object is known by its name. *)
Record Batch := {
  batch_num : nat;
  puzzles_in_current_batch : nat;
  f : option string
}.

Record State := {
  easy_puzzles_pgn_strings : list string;
  hard_puzzles_pgn_strings : list string;
  error_puzzles_count : nat;
  processed_puzzles_count : nat;
  engine : bool;
  easy : Batch;
  hard : Batch
}.

Definition easy_batch_num (st : State) : nat := batch_num (easy st).
Definition hard_batch_num (st : State) : nat := batch_num (hard st).
Definition easy_puzzles_in_current_batch (st : State) : nat :=
  puzzles_in_current_batch (easy st).
Definition hard_puzzles_in_current_batch (st : State) : nat :=
  puzzles_in_current_batch (hard st).
Definition f_easy (st : State) : option string := f (easy st).
Definition f_hard (st : State) : option string := f (hard st).

Definition initial_batch : Batch :=
  {| batch_num := 0; puzzles_in_current_batch := 0; f := None |}.

Definition initial_state : State :=
  {| easy_puzzles_pgn_strings := [];
     hard_puzzles_pgn_strings := [];
     error_puzzles_count := 0;
     processed_puzzles_count := 0;
     engine := false;
     easy := initial_batch;
     hard := initial_batch |}.

(** ** Writing a classified puzzle to its batch file *)

(** Lines 130-149 for the easy stream and 156-175 for the hard one: the
    same block, spelled twice over the two sets of variables.  [k] is the
    number of the record being handled. *)
Definition rotate (env : Env) (k : nat) (s : Stream) (base_name : string)
    (b : Batch) : Batch * list Event :=
  if bool_decide (f b = None)
     || (PUZZLES_PER_BATCH <=? puzzles_in_current_batch b) then
    let closing :=
      match f b with
      | Some name => [CloseOutput s name; Print (MsgClosed s name)]
      | None => []
      end in
    let num := batch_num b + 1 in
    let current_filename := batch_filename base_name num in
    match open_output env k current_filename with
    | None =>
        ({| batch_num := num; puzzles_in_current_batch := 0;
            f := Some current_filename |},
         closing ++ [OpenOutput s current_filename true;
                     Print (MsgOpened s current_filename)])
    | Some e =>
        ({| batch_num := num; puzzles_in_current_batch := 0; f := None |},
         closing ++ [OpenOutput s current_filename false;
                     Print (MsgOpenError s current_filename e)])
    end
  else (b, []).

Definition write_current (env : Env) (k : nat) (s : Stream)
    (current_pgn_string : string) (b : Batch) : Batch * list Event :=
  match f b with
  | Some name =>
      let data := current_pgn_string +:+ newline +:+ newline in
      match file_write env k name data with
      | None =>
          ({| batch_num := batch_num b;
              puzzles_in_current_batch := puzzles_in_current_batch b + 1;
              f := f b |},
           [WriteOutput s name data true])
      | Some e =>
          (b, [WriteOutput s name data false; Print (MsgWriteError s name e)])
      end
  | None => (b, [])
  end.

Definition write_batch (env : Env) (k : nat) (s : Stream)
    (base_name current_pgn_string : string) (b : Batch)
  : Batch * list Event :=
  let (b1, ev1) := rotate env k s base_name b in
  let (b2, ev2) := write_current env k s current_pgn_string b1 in
  (b2, ev1 ++ ev2).

(** ** The body of the reading loop (lines 90-175) *)

(** [current_puzzle_id_str] *)
Definition puzzle_id (n : nat) (game : Game) : string :=
  "puzzle #" +:+ pretty n +:+ " (Event: "
  +:+ default "N/A" (headers game !! "Event") +:+ ")".

Definition count_processed (st : State) : State :=
  {| easy_puzzles_pgn_strings := easy_puzzles_pgn_strings st;
     hard_puzzles_pgn_strings := hard_puzzles_pgn_strings st;
     error_puzzles_count := error_puzzles_count st;
     processed_puzzles_count := processed_puzzles_count st + 1;
     engine := engine st;
     easy := easy st;
     hard := hard st |}.

Definition count_error (st : State) : State :=
  {| easy_puzzles_pgn_strings := easy_puzzles_pgn_strings st;
     hard_puzzles_pgn_strings := hard_puzzles_pgn_strings st;
     error_puzzles_count := error_puzzles_count st + 1;
     processed_puzzles_count := processed_puzzles_count st;
     engine := engine st;
     easy := easy st;
     hard := hard st |}.

(** [easy_puzzles_pgn_strings.append(current_pgn_string)] followed by the
    update of the easy stream's variables. *)
Definition append_easy (current_pgn_string : string) (b : Batch) (st : State)
  : State :=
  {| easy_puzzles_pgn_strings :=
       easy_puzzles_pgn_strings st ++ [current_pgn_string];
     hard_puzzles_pgn_strings := hard_puzzles_pgn_strings st;
     error_puzzles_count := error_puzzles_count st;
     processed_puzzles_count := processed_puzzles_count st;
     engine := engine st;
     easy := b;
     hard := hard st |}.

Definition append_hard (current_pgn_string : string) (b : Batch) (st : State)
  : State :=
  {| easy_puzzles_pgn_strings := easy_puzzles_pgn_strings st;
     hard_puzzles_pgn_strings :=
       hard_puzzles_pgn_strings st ++ [current_pgn_string];
     error_puzzles_count := error_puzzles_count st;
     processed_puzzles_count := processed_puzzles_count st;
     engine := engine st;
     easy := easy st;
     hard := b |}.

Definition loop_body (env : Env) (easy_base_name hard_base_name : string)
    (st0 : State) (game : Game) : State * list Event :=
  let st := count_processed st0 in
  let n := processed_puzzles_count st in
  let current_puzzle_id_str := puzzle_id n game in
  let current_pgn_string := string_exporter env game in
  let fen := headers game !! "FEN" in
  let setup := headers game !! "SetUp" in
  let ev := [Print (MsgProcessing current_puzzle_id_str)] in
  if bool_decide (setup = Some "1") && negb (opt_str_bool fen) then
    (count_error st, ev ++ [Print (MsgSetUpWithoutFen current_puzzle_id_str)])
  else if negb (opt_str_bool fen) then
    (count_error st, ev ++ [Print (MsgFenNotFound current_puzzle_id_str)])
  else
    let fen_str := default "" fen in
    match mainline_moves game with
    | [] =>
        (count_error st,
         ev ++ [Print (MsgNoSolution current_puzzle_id_str);
                Print (MsgHeaders (headers game))]
            ++ match errors game with
               | [] => []
               | errs => [Print (MsgParserErrors errs)]
               end)
    | solution_move_object :: _ =>
        let (maia_top_move, ev_maia) := get_maia_top_move env n fen_str in
        let skipped :=
          (count_error st,
           ev ++ ev_maia ++ [Print (MsgNoTopMove current_puzzle_id_str)]) in
        match maia_top_move with
        | None => skipped
        | Some top =>
            if negb (Move_bool top) then skipped
            else if bool_decide (solution_move_object = top) then
              let (b, ev_w) :=
                write_batch env n Easy easy_base_name current_pgn_string
                  (easy st) in
              (append_easy current_pgn_string b st,
               ev ++ ev_maia ++ [Print (MsgEasy current_puzzle_id_str)]
                  ++ ev_w)
            else
              let solution_san := board_san env fen_str solution_move_object in
              let maia_san := board_san env fen_str top in
              let (b, ev_w) :=
                write_batch env n Hard hard_base_name current_pgn_string
                  (hard st) in
              (append_hard current_pgn_string b st,
               ev ++ ev_maia
                  ++ [NewBoard fen_str;
                      Print (MsgHard current_puzzle_id_str solution_san
                               maia_san)]
                  ++ ev_w)
        end
    end.

(** ** The reading loop (lines 85-88) *)

(** [pgn_file] lists what the successive calls of [chess.pgn.read_game]
    give; past its end the call returns [None].  The third component is the
    exception that left the loop, if one did. *)
Fixpoint read_games (env : Env) (easy_base_name hard_base_name : string)
    (pgn_file : list (Result Game)) (st : State)
  : State * list Event * option Exn :=
  match pgn_file with
  | [] => (st, [ReadGame], None)
  | Raise e :: _ => (st, [ReadGame], Some e)
  | Return game :: rest =>
      let (st1, ev1) := loop_body env easy_base_name hard_base_name st game in
      let '(st2, ev2, r) :=
        read_games env easy_base_name hard_base_name rest st1 in
      (st2, ReadGame :: ev1 ++ ev2, r)
  end.

(** ** process_pgn_file *)

(** Lines 69-82: the second component tells whether [engine] was
    assigned, the third whether initialisation went through. *)
Definition init_engine (env : Env) : list Event * bool * bool :=
  let failed (e : Exn) : list Event :=
    match e with
    | EngineTerminatedError _ => [Print MsgEngineTerminated]
    | FileNotFoundError _ => [Print MsgEngineNotFound]
    | OtherException m => [Print (MsgEngineInitError m); Print MsgEngineInitHint]
    end in
  match popen_uci env with
  | Raise e => ([PopenUci] ++ failed e, false, false)
  | Return _ =>
      match engine_configure env with
      | Raise e => ([PopenUci; Configure] ++ failed e, true, false)
      | Return _ =>
          ([PopenUci; Configure; Print MsgEngineInitialized], true, true)
      end
  end.

Definition close_final (s : Stream) (file : option string) : list Event :=
  match file with
  | Some name => [CloseOutput s name; Print (MsgClosedFinal s name)]
  | None => []
  end.

(** Lines 182-191 *)
Definition finally (st : State) : list Event :=
  (if engine st then [Quit; Print MsgEngineQuit] else [])
  ++ close_final Easy (f_easy st)
  ++ close_final Hard (f_hard st).

(** Lines 194-202 *)
Definition summary (easy_base_name hard_base_name : string) (st : State)
  : list Event :=
  [Print (MsgSummaryProcessed (processed_puzzles_count st));
   Print (MsgSummaryTotal Easy (length (easy_puzzles_pgn_strings st)))]
  ++ (if 0 <? easy_batch_num st
      then [Print (MsgSummaryBatches Easy (easy_batch_num st) easy_base_name)]
      else [])
  ++ [Print (MsgSummaryTotal Hard (length (hard_puzzles_pgn_strings st)))]
  ++ (if 0 <? hard_batch_num st
      then [Print (MsgSummaryBatches Hard (hard_batch_num st) hard_base_name)]
      else [])
  ++ (if 0 <? error_puzzles_count st
      then [Print (MsgSummarySkipped (error_puzzles_count st))]
      else []).

Definition with_engine (b : bool) (st : State) : State :=
  {| easy_puzzles_pgn_strings := easy_puzzles_pgn_strings st;
     hard_puzzles_pgn_strings := hard_puzzles_pgn_strings st;
     error_puzzles_count := error_puzzles_count st;
     processed_puzzles_count := processed_puzzles_count st;
     engine := b;
     easy := easy st;
     hard := hard st |}.

(** The handlers of lines 177-181, the [finally] block and, unless the
    handler returned, the summary. *)
Definition leave (input_pgn_filepath easy_base_name hard_base_name : string)
    (st : State) (raised : option Exn) : list Event :=
  match raised with
  | None => finally st ++ summary easy_base_name hard_base_name st
  | Some (FileNotFoundError _) =>
      [Print (MsgInputNotFound input_pgn_filepath)] ++ finally st
  | Some e =>
      [Print (MsgUnexpected (exn_msg e))] ++ finally st
      ++ summary easy_base_name hard_base_name st
  end.

(** The final values of the local variables and everything the call did. *)
Definition process_pgn_file (env : Env)
    (input_pgn_filepath easy_output_filepath hard_output_filepath : string)
  : State * list Event :=
  let easy_base_name := rsplit_dot_0 easy_output_filepath in
  let hard_base_name := rsplit_dot_0 hard_output_filepath in
  let ev_start :=
    [Print (MsgStarting input_pgn_filepath);
     Print (MsgBatchSize PUZZLES_PER_BATCH);
     Print (MsgBaseName Easy easy_base_name);
     Print (MsgBaseName Hard hard_base_name)] in
  let '(ev_init, assigned, ok) := init_engine env in
  let st0 := with_engine assigned initial_state in
  if negb ok then (st0, ev_start ++ ev_init ++ finally st0)
  else
    match open_input env input_pgn_filepath with
    | Raise e =>
        (st0, ev_start ++ ev_init ++ [OpenInput input_pgn_filepath]
              ++ leave input_pgn_filepath easy_base_name hard_base_name
                   st0 (Some e))
    | Return pgn_file =>
        let '(st1, ev_loop, raised) :=
          read_games env easy_base_name hard_base_name pgn_file st0 in
        (st1, ev_start ++ ev_init ++ [OpenInput input_pgn_filepath]
              ++ ev_loop ++ [CloseInput]
              ++ leave input_pgn_filepath easy_base_name hard_base_name
                   st1 raised)
    end.

(** ** Reading a trace *)

(** The names of the files opened (or tried) for stream [s], in order. *)
Definition opened (s : Stream) (tr : list Event) : list string :=
  omap (λ e, match e with
             | OpenOutput s' name _ => if decide (s' = s) then Some name else None
             | _ => None
             end) tr.

Fixpoint remove_one (name : string) (l : list string) : list string :=
  match l with
  | [] => []
  | x :: r => if decide (x = name) then r else x :: remove_one name r
  end.

(** The files of stream [s] that are open after the events of [tr]: a
    successful open adds its file, a close removes it. *)
Definition track_open (s : Stream) (acc : list string) (e : Event)
  : list string :=
  match e with
  | OpenOutput s' name true => if decide (s' = s) then acc ++ [name] else acc
  | CloseOutput s' name => if decide (s' = s) then remove_one name acc else acc
  | _ => acc
  end.

Definition open_files (s : Stream) (tr : list Event) : list string :=
  fold_left (track_open s) tr [].

(** The number of puzzles each file of stream [s] has received, newest
    file first: an open starts a file at 0 and a write that succeeded adds
    one to the newest. *)
Definition count_write (s : Stream) (acc : list nat) (e : Event) : list nat :=
  match e with
  | OpenOutput s' _ _ => if decide (s' = s) then 0 :: acc else acc
  | WriteOutput s' _ _ true =>
      if decide (s' = s)
      then match acc with [] => [1] | n :: r => S n :: r end
      else acc
  | _ => acc
  end.

Definition batch_sizes (s : Stream) (tr : list Event) : list nat :=
  fold_left (count_write s) tr [].

(** What must hold when event [e] of stream [s] happens after the events
    [pre]: a file is opened only when no file of the stream is open, under
    the next batch number; a puzzle is written to the open file, which is
    the newest one and holds fewer than [PUZZLES_PER_BATCH] puzzles; the
    file that is closed is the open one. *)
Definition batch_step_ok (s : Stream) (base_name : string)
    (pre : list Event) (e : Event) : Prop :=
  match e with
  | OpenOutput s' name _ =>
      s' = s →
      open_files s pre = []
      ∧ name = batch_filename base_name (length (opened s pre) + 1)
  | WriteOutput s' name _ _ =>
      s' = s →
      open_files s pre = [name]
      ∧ last (opened s pre) = Some name
      ∧ hd 0 (batch_sizes s pre) < PUZZLES_PER_BATCH
  | CloseOutput s' name => s' = s → open_files s pre = [name]
  | _ => True
  end.

Definition at_every_event (P : list Event → Event → Prop) (tr : list Event)
  : Prop :=
  ∀ pre e post, tr = pre ++ e :: post → P pre e.

(** An event that touches no file of stream [s]. *)
Definition neutral (s : Stream) (e : Event) : Prop :=
  match e with
  | OpenOutput s' _ _ | WriteOutput s' _ _ _ | CloseOutput s' _ => s' ≠ s
  | _ => True
  end.

(** ** The sample input of the script *)

Module Sample.

Definition Qd6 : Move :=
  {| from_square := 59; to_square := 43; promotion := None; drop := None |}.
Definition d4 : Move :=
  {| from_square := 11; to_square := 27; promotion := None; drop := None |}.
Definition e4 : Move :=
  {| from_square := 12; to_square := 28; promotion := None; drop := None |}.
Definition null_move : Move :=
  {| from_square := 0; to_square := 0; promotion := None; drop := None |}.

Definition fen1 : string :=
  "r2q3r/ppp2k2/5np1/3p4/6b1/5P2/PP2Q1PP/RNB1R2K b - - 0 1".
Definition start_fen : string :=
  "rnbqkbnr/pppppppp/8/8/8/8/PPPPPPPP/RNBQKBNR w KQkq - 0 1".

Definition puzzle (event fen : string) (moves : list Move) : Game :=
  {| headers := <["Event" := event]> (<["FEN" := fen]> {["SetUp" := "1"]});
     mainline_moves := moves;
     errors := [] |}.

Definition puzzle1 : Game := puzzle "Puzzle 1 (Easy Example)" fen1 [Qd6].
Definition puzzle2 : Game := puzzle "Puzzle 2 (Hard Example)" start_fen [d4].
Definition puzzle3 : Game := puzzle "Puzzle 3 (Same as 1, Easy)" fen1 [Qd6].

(** A game from the initial position, with moves and no FEN tag. *)
Definition no_fen : Game :=
  {| headers := {["Event" := "Game without FEN"]};
     mainline_moves := [e4];
     errors := [] |}.

(** The engine finds Qd6 in the first position and plays e4 elsewhere. *)
Definition env : Env :=
  {| popen_uci := Return ();
     engine_configure := Return ();
     open_input := λ _, Return [Return puzzle1; Return puzzle2; Return puzzle3];
     string_exporter := λ g, default "?" (headers g !! "Event");
     chess_Board := λ fen_str, Return {| board_fen := fen_str |};
     engine_analyse := λ _ b,
       Return {| pv := Some [if bool_decide (board_fen b = fen1)
                             then Qd6 else e4];
                 other_entries := 3 |};
     board_san := λ _ m,
       pretty (from_square m) +:+ "-" +:+ pretty (to_square m);
     open_output := λ _ _, None;
     file_write := λ _ _ _, None |}.

(** The variables of the easy stream when its first file is full. *)
Definition full_batch : Batch :=
  {| batch_num := 1;
     puzzles_in_current_batch := 25;
     f := Some "easy_batch_1.pgn" |}.

(** The same world with an input file of [n] copies of the first puzzle. *)
Definition env_many (n : nat) : Env :=
  {| popen_uci := popen_uci env;
     engine_configure := engine_configure env;
     open_input := λ _, Return (replicate n (Return puzzle1));
     string_exporter := string_exporter env;
     chess_Board := chess_Board env;
     engine_analyse := engine_analyse env;
     board_san := board_san env;
     open_output := open_output env;
     file_write := file_write env |}.

(** The same world with an engine that answers [a] to every analysis. *)
Definition env_answering (a : Result InfoDict) : Env :=
  {| popen_uci := popen_uci env;
     engine_configure := engine_configure env;
     open_input := open_input env;
     string_exporter := string_exporter env;
     chess_Board := chess_Board env;
     engine_analyse := λ _ _, a;
     board_san := board_san env;
     open_output := open_output env;
     file_write := file_write env |}.

(** The same world where no FEN string is accepted. *)
Definition env_bad_fen : Env :=
  {| popen_uci := popen_uci env;
     engine_configure := engine_configure env;
     open_input := open_input env;
     string_exporter := string_exporter env;
     chess_Board := λ _, Raise (OtherException "invalid fen");
     engine_analyse := engine_analyse env;
     board_san := board_san env;
     open_output := open_output env;
     file_write := file_write env |}.

(** The same world where no file can be opened while the first record is
    handled. *)
Definition env_open_fails_once : Env :=
  {| popen_uci := popen_uci env;
     engine_configure := engine_configure env;
     open_input := open_input env;
     string_exporter := string_exporter env;
     chess_Board := chess_Board env;
     engine_analyse := engine_analyse env;
     board_san := board_san env;
     open_output := λ k _, if k =? 1 then Some "Permission denied" else None;
     file_write := file_write env |}.

End Sample.

(** ** Reading the effect of one record *)

(** The position string the engine is asked about: the FEN header. *)
Definition fen_of (game : Game) : string := default "" (headers game !! "FEN").

(** The engine's answer for record number [n]. *)
Definition top_move (env : Env) (n : nat) (game : Game) : option Move :=
  (get_maia_top_move env n (fen_of game)).1.

(** The test of line 122 passes: [maia_top_move] is true. *)
Definition usable (o : option Move) : bool :=
  match o with Some m => Move_bool m | None => false end.

(** The record went to the list of class [s], and the other list is as it
    was. *)
Definition classified_as (s : Stream) (current_pgn_string : string)
    (st st' : State) : Prop :=
  match s with
  | Easy =>
      easy_puzzles_pgn_strings st'
        = easy_puzzles_pgn_strings st ++ [current_pgn_string]
      ∧ hard_puzzles_pgn_strings st' = hard_puzzles_pgn_strings st
  | Hard =>
      hard_puzzles_pgn_strings st'
        = hard_puzzles_pgn_strings st ++ [current_pgn_string]
      ∧ easy_puzzles_pgn_strings st' = easy_puzzles_pgn_strings st
  end.

Definition is_file_event (e : Event) : bool :=
  match e with
  | OpenOutput _ _ _ | WriteOutput _ _ _ _ | CloseOutput _ _ => true
  | _ => false
  end.

Definition is_analyse (e : Event) : bool :=
  match e with Analyse _ _ => true | _ => false end.

Definition is_write (e : Event) : bool :=
  match e with WriteOutput _ _ _ _ => true | _ => false end.

Definition is_print (e : Event) : bool :=
  match e with Print _ => true | _ => false end.

(** [processed_puzzles_count == len(easy) + len(hard) + error_puzzles_count] *)
Definition counts_partition (st : State) : Prop :=
  processed_puzzles_count st
  = length (easy_puzzles_pgn_strings st)
    + length (hard_puzzles_pgn_strings st)
    + error_puzzles_count st.

(** The number of games [read_game] delivers before the loop ends. *)
Fixpoint games_read (pgn_file : list (Result Game)) : nat :=
  match pgn_file with
  | Return _ :: rest => S (games_read rest)
  | _ => 0
  end.

Fixpoint contains_char (c : Ascii.ascii) (s : string) : bool :=
  match s with
  | EmptyString => false
  | String c' s' => Ascii.eqb c' c || contains_char c s'
  end.

(** The writes of a trace: stream, file, data and whether it succeeded. *)
Definition writes (tr : list Event) : list (Stream * string * string * bool) :=
  omap (λ e, match e with
             | WriteOutput s name data ok => Some (s, name, data, ok)
             | _ => None
             end) tr.

(** The calls of [engine.analyse] of a trace: board and node limit. *)
Definition analyses (tr : list Event) : list (Board * nat) :=
  omap (λ e, match e with Analyse b nodes => Some (b, nodes) | _ => None end)
    tr.

(** [current_pgn_string + "\n\n"] *)
Definition written_data (current_pgn_string : string) : string :=
  current_pgn_string +:+ newline +:+ newline.

(** The three tests a record must pass to be classified: a FEN header
    that is not empty (lines 100-107), a mainline move (line 110) and a top
    move from the engine (line 122). *)
Definition passes (env : Env) (n : nat) (game : Game) : bool :=
  opt_str_bool (headers game !! "FEN")
  && bool_decide (mainline_moves game ≠ [])
  && usable (top_move env n game).

(** The messages that announce a skipped record. *)
Definition skip_message (m : Message) : bool :=
  match m with
  | MsgSetUpWithoutFen _ | MsgFenNotFound _ | MsgNoSolution _
  | MsgNoTopMove _ => true
  | _ => false
  end.

Definition other (s : Stream) : Stream :=
  match s with Easy => Hard | Hard => Easy end.

(** The class a comparison of the two moves gives (line 127). *)
Definition compare_moves (solution_move_object maia_top_move : Move) : Stream :=
  if bool_decide (solution_move_object = maia_top_move) then Easy else Hard.

(** The sentence "every record read is analysed by the engine and appended
    to one of the two output streams", read in the weakest way: the record
    went to one of the two lists or was written to a batch file. *)
Definition analysed_and_appended (env : Env) (eb hb : string) (st : State)
    (game : Game) : Prop :=
  let r := loop_body env eb hb st game in
  (∃ board, Analyse board 1 ∈ r.2)
  ∧ (classified_as Easy (string_exporter env game) st r.1
     ∨ classified_as Hard (string_exporter env game) st r.1
     ∨ ∃ s name data, WriteOutput s name data true ∈ r.2).

(** ** The invariant of the reading loop *)

(** The variables of stream [s] in a state, and the same variables once the
    [finally] block has closed the file. *)
Definition batch_of (s : Stream) (st : State) : Batch :=
  match s with Easy => easy st | Hard => hard st end.

Definition closed (b : Batch) : Batch :=
  {| batch_num := batch_num b;
     puzzles_in_current_batch := puzzles_in_current_batch b;
     f := None |}.

(** How the events so far and the three variables of stream [s] agree. *)
Record batch_inv (s : Stream) (base_name : string) (tr : list Event)
    (b : Batch) : Prop := {
  inv_opened :
    opened s tr = map (batch_filename base_name) (seq 1 (batch_num b));
  inv_open : open_files s tr = option_list (f b);
  inv_current : ∀ name, f b = Some name → last (opened s tr) = Some name;
  inv_count : hd 0 (batch_sizes s tr) = puzzles_in_current_batch b;
  inv_sizes : Forall (λ n, n ≤ PUZZLES_PER_BATCH) (batch_sizes s tr);
  inv_steps : at_every_event (batch_step_ok s base_name) tr
}.

Definition loop_inv (easy_base_name hard_base_name : string)
    (tr : list Event) (st : State) : Prop :=
  batch_inv Easy easy_base_name tr (easy st)
  ∧ batch_inv Hard hard_base_name tr (hard st)
  ∧ counts_partition st.

(** The events of the engine's and the input file's life cycle. *)
Definition is_lifecycle (e : Event) : bool :=
  match e with
  | PopenUci | Configure | Quit | OpenInput _ | CloseInput => true
  | _ => false
  end.

Definition is_close (e : Event) : bool :=
  match e with CloseOutput _ _ => true | _ => false end.

(** The two ends of the engine's life. *)
Definition is_engine_edge (e : Event) : bool :=
  match e with PopenUci | Quit => true | _ => false end.

(** The events of the input file. *)
Definition is_input (e : Event) : bool :=
  match e with ReadGame | OpenInput _ | CloseInput => true | _ => false end.

(** The file events of a trace, in order. *)
Definition file_events (tr : list Event) : list Event :=
  omap (λ e, if is_file_event e then Some e else None) tr.

(** The base name of stream [s]. *)
Definition base_of (s : Stream) (easy_output_filepath
    hard_output_filepath : string) : string :=
  match s with
  | Easy => rsplit_dot_0 easy_output_filepath
  | Hard => rsplit_dot_0 hard_output_filepath
  end.

(** ** Reading a whole run *)

(** The games [read_game] delivers before the loop ends, and the exception
    that ends it, if one does. *)
Fixpoint games_of (pgn_file : list (Result Game)) : list Game :=
  match pgn_file with
  | Return game :: rest => game :: games_of rest
  | _ => []
  end.

Fixpoint first_raise (pgn_file : list (Result Game)) : option Exn :=
  match pgn_file with
  | [] => None
  | Raise e :: _ => Some e
  | Return _ :: rest => first_raise rest
  end.

(** The games a call of [process_pgn_file] handles: none when the engine
    cannot be initialised or the input file cannot be opened. *)
Definition games_handled (env : Env) (input_pgn_filepath : string)
  : list Game :=
  if (init_engine env).2 then
    match open_input env input_pgn_filepath with
    | Return pgn_file => games_of pgn_file
    | Raise _ => []
    end
  else [].

(** The exception that leaves the [with] block of line 84, if any. *)
Definition exit_exception (env : Env) (input_pgn_filepath : string)
  : option Exn :=
  if (init_engine env).2 then
    match open_input env input_pgn_filepath with
    | Return pgn_file => first_raise pgn_file
    | Raise e => Some e
    end
  else None.

(** The function leaves through one of its [return] statements (lines 75,
    78, 82 and 179). *)
Definition returns_early (env : Env) (input_pgn_filepath : string) : bool :=
  negb (init_engine env).2
  || match exit_exception env input_pgn_filepath with
     | Some (FileNotFoundError _) => true
     | _ => false
     end.

(** The class record number [n] gets, [None] when it is skipped. *)
Definition verdict (env : Env) (n : nat) (game : Game) : option Stream :=
  if passes env n game then
    match mainline_moves game, top_move env n game with
    | sol :: _, Some top => Some (compare_moves sol top)
    | _, _ => None
    end
  else None.

(** What the records contribute one after the other, the first one being
    number [n + 1]. *)
Fixpoint per_record {A : Type} (F : nat → Game → list A) (n : nat)
    (games : list Game) : list A :=
  match games with
  | [] => []
  | game :: rest => F (n + 1) game ++ per_record F (n + 1) rest
  end.

(** The exported text of record [n] when its class is [s]. *)
Definition export_if (env : Env) (s : Stream) (n : nat) (game : Game)
  : list string :=
  if bool_decide (verdict env n game = Some s)
  then [string_exporter env game] else [].

(** One mark when record [n] is skipped. *)
Definition skipped_if (env : Env) (n : nat) (game : Game) : list unit :=
  match verdict env n game with Some _ => [] | None => [()] end.

(** The analysis record [n] asks for: one, on the board of its FEN, when
    it has a non-empty FEN header that builds a board and a mainline. *)
Definition analysis_of (env : Env) (n : nat) (game : Game)
  : list (Board * nat) :=
  if opt_str_bool (headers game !! "FEN")
     && bool_decide (mainline_moves game ≠ [])
  then match chess_Board env (fen_of game) with
       | Return board => [(board, 1)]
       | Raise _ => []
       end
  else [].

(** The data of the writes of stream [s] that succeeded, in order. *)
Definition written (s : Stream) (tr : list Event) : list string :=
  omap (λ e, match e with
             | WriteOutput s' _ data true =>
                 if decide (s' = s) then Some data else None
             | _ => None
             end) tr.

(** The number of puzzles stream [s] wrote to the file called [name]. *)
Definition puzzles_in_file (s : Stream) (name : string) (tr : list Event)
  : nat :=
  length (omap (λ e, match e with
                     | WriteOutput s' name' _ true =>
                         if decide (s' = s ∧ name' = name) then Some ()
                         else None
                     | _ => None
                     end) tr).

(** The identifiers of the "Processing ..." lines of a trace. *)
Definition processing_ids (tr : list Event) : list string :=
  omap (λ e, match e with Print (MsgProcessing id) => Some id | _ => None end)
    tr.

(** The messages printed while a record is handled. *)
Definition is_record_message (m : Message) : bool :=
  match m with
  | MsgNoPv | MsgAnalysisError _ _ | MsgProcessing _ | MsgSetUpWithoutFen _
  | MsgFenNotFound _ | MsgNoSolution _ | MsgHeaders _ | MsgParserErrors _
  | MsgNoTopMove _ | MsgEasy _ | MsgHard _ _ _ | MsgClosed _ _
  | MsgOpened _ _ | MsgOpenError _ _ _ | MsgWriteError _ _ _ => true
  | _ => false
  end.

(** The events that happen outside the handling of records: the life
    cycle of the engine and of the input file, the final closings and the
    other prints. *)
Definition outside_records (e : Event) : bool :=
  match e with
  | Print m => negb (is_record_message m)
  | PopenUci | Configure | OpenInput _ | CloseInput | Quit | ReadGame
  | CloseOutput _ _ => true
  | _ => false
  end.

(** The events of the reading loop within a call of [process_pgn_file]. *)
Definition loop_events (env : Env) (input eo ho : string) : list Event :=
  if (init_engine env).2 then
    match open_input env input with
    | Return pgn_file =>
        (read_games env (rsplit_dot_0 eo) (rsplit_dot_0 ho) pgn_file
           (with_engine true initial_state)).1.2
    | Raise _ => []
    end
  else [].

(** The number of calls of [read_game] in a trace. *)
Definition reads (tr : list Event) : nat :=
  length (omap (λ e, match e with ReadGame => Some () | _ => None end) tr).

(** The list of class [s] in a state. *)
Definition list_of (s : Stream) (st : State) : list string :=
  match s with
  | Easy => easy_puzzles_pgn_strings st
  | Hard => hard_puzzles_pgn_strings st
  end.

(** The summary line of line 194. *)
Definition is_summary (e : Event) : bool :=
  match e with Print (MsgSummaryProcessed _) => true | _ => false end.

(** No output file fails to open and no write fails. *)
Definition no_io_failure (env : Env) : Prop :=
  (∀ k name, open_output env k name = None)
  ∧ (∀ k name data, file_write env k name data = None).

(** The variables and the batch sizes of stream [s] after [len] puzzles of
    its class when nothing has failed: no file before the first puzzle;
    afterwards an open file holding between 1 and [PUZZLES_PER_BATCH]
    puzzles and only full files before it. *)
Definition full_batches (s : Stream) (tr : list Event) (b : Batch)
    (len : nat) : Prop :=
  match batch_num b with
  | 0 =>
      len = 0 ∧ puzzles_in_current_batch b = 0 ∧ f b = None
      ∧ batch_sizes s tr = []
  | S k =>
      f b ≠ None
      ∧ 1 ≤ puzzles_in_current_batch b ≤ PUZZLES_PER_BATCH
      ∧ len = PUZZLES_PER_BATCH * k + puzzles_in_current_batch b
      ∧ batch_sizes s tr
        = puzzles_in_current_batch b :: replicate k PUZZLES_PER_BATCH
  end.

(** The number of files [len] puzzles need and what each holds, newest
    first: full files and, last, the rest. *)
Definition files_needed (len : nat) : nat :=
  (len + (PUZZLES_PER_BATCH - 1)) / PUZZLES_PER_BATCH.

Definition sizes_needed (len : nat) : list nat :=
  match files_needed len with
  | 0 => []
  | S k => (len - PUZZLES_PER_BATCH * k) :: replicate k PUZZLES_PER_BATCH
  end.

(** A stream has a batch number exactly when its list is not empty. *)
Definition started_iff_nonempty (b : Batch) (len : nat) : Prop :=
  (batch_num b = 0 ↔ len = 0) ∧ (batch_num b = 0 → f b = None).

(** The events of the input file in a trace, in order. *)
Definition input_events (tr : list Event) : list Event :=
  omap (λ e, if is_input e then Some e else None) tr.

(** ** The script's entry point (lines 205-313) *)

Definition quote : string := String (Ascii.ascii_of_nat 34) EmptyString.

(** One tag line of the sample text: [[name "value"]] and a newline. *)
Definition tag_line (name value : string) : string :=
  "[" +:+ name +:+ " " +:+ quote +:+ value +:+ quote +:+ "]" +:+ newline.

(** One game of the sample text: the nine tags, an empty line, the moves
    and an empty line. *)
Definition sample_game (event fen movetext : string) : string :=
  tag_line "Event" event
  +:+ tag_line "Site" "ClassifyTest"
  +:+ tag_line "Date" "2024.01.01"
  +:+ tag_line "Round" "?"
  +:+ tag_line "White" "?"
  +:+ tag_line "Black" "?"
  +:+ tag_line "Result" "*"
  +:+ tag_line "FEN" fen
  +:+ tag_line "SetUp" "1"
  +:+ newline +:+ movetext +:+ newline +:+ newline.

Definition pgn_multi_example : string :=
  sample_game "Puzzle 1 (Easy Example)" Sample.fen1 "1... Qd6 *"
  +:+ sample_game "Puzzle 2 (Hard Example)" Sample.start_fen "1. d4 *"
  +:+ sample_game "Puzzle 3 (Same as 1, Easy)" Sample.fen1 "1... Qd6 *"
  +:+ sample_game "Puzzle 4 (Valid Example)"
        "rnbqkb1r/1p2pppp/p2p1n2/8/3NP3/2N5/PPP2PPP/R1BQKB1R w KQkq - 0 6"
        "6. Be3 *"
  +:+ sample_game "Puzzle 5 (Valid Example Endgame)"
        "8/8/8/8/k7/P7/K7/8 w - - 0 1" "1. Kb2 *".

Definition easy_puzzles_file : string := "easy_puzzles_output.pgn".
Definition hard_puzzles_file : string := "hard_puzzles_output.pgn".
Definition sample_puzzles_file : string := "sample_puzzles_to_classify.pgn".

(** The world of the script: the world of [process_pgn_file] and the
    outcome of opening and of writing the sample file ([Some msg] for an
    [IOError]). *)
Record MainEnv := {
  world : Env;
  sample_open : option string;
  sample_write : option string
}.

Inductive MainMessage :=
| MsgUserFile (path : string)
| MsgNoInputFile (path : string)
| MsgSampleWritten (path : string)
| MsgSampleError (e : string)
| MsgCleanUp (input easy_prefix hard_prefix : string)
| MsgPrefixes (easy_prefix hard_prefix : string).

(** What the script does: the events of [process_pgn_file], its own
    prints, the writing of the sample file and [exit()]. *)
Inductive MainEvent :=
| Ran (e : Event)
| MainPrint (m : MainMessage)
| OpenSample (path : string) (ok : bool)
| WriteSample (path content : string) (ok : bool)
| CloseSample (path : string)
| Exit.

(** Lines 300-306; the second component tells whether the script goes
    on. *)
Definition write_sample (menv : MainEnv) (path : string)
  : list MainEvent * bool :=
  match sample_open menv with
  | Some e => ([OpenSample path false; MainPrint (MsgSampleError e); Exit],
               false)
  | None =>
      match sample_write menv with
      | Some e =>
          ([OpenSample path true; WriteSample path pgn_multi_example false;
            CloseSample path; MainPrint (MsgSampleError e); Exit],
           false)
      | None =>
          ([OpenSample path true; WriteSample path pgn_multi_example true;
            CloseSample path; MainPrint (MsgSampleWritten path)],
           true)
      end
  end.

(** [argv] is [sys.argv]. *)
Definition main (menv : MainEnv) (argv : list string) : list MainEvent :=
  let '(input_pgn_file_to_process, create_sample_file, ev0) :=
    match argv with
    | _ :: arg :: _ => (arg, false, [MainPrint (MsgUserFile arg)])
    | _ => (sample_puzzles_file, true,
            [MainPrint (MsgNoInputFile sample_puzzles_file)])
    end in
  let (ev_sample, go_on) :=
    if create_sample_file
    then write_sample menv input_pgn_file_to_process
    else ([], true) in
  if go_on then
    ev0 ++ ev_sample
    ++ map Ran (process_pgn_file (world menv) input_pgn_file_to_process
                  easy_puzzles_file hard_puzzles_file).2
    ++ [MainPrint
          (if create_sample_file
           then MsgCleanUp input_pgn_file_to_process
                  (rsplit_dot_0 easy_puzzles_file)
                  (rsplit_dot_0 hard_puzzles_file)
           else MsgPrefixes (rsplit_dot_0 easy_puzzles_file)
                  (rsplit_dot_0 hard_puzzles_file))]
  else ev0 ++ ev_sample.

(** The events of [process_pgn_file] within those of the script. *)
Definition ran (tr : list MainEvent) : list Event :=
  omap (λ e, match e with Ran e' => Some e' | _ => None end) tr.

(** The number of puzzles written to the path [name] by either stream. *)
Definition puzzles_at_path (name : string) (tr : list Event) : nat :=
  puzzles_in_file Easy name tr + puzzles_in_file Hard name tr.

(** [len(sys.argv) > 1] *)
Definition has_argument (argv : list string) : bool :=
  match argv with _ :: _ :: _ => true | _ => false end.

(** The value of [input_pgn_file_to_process]. *)
Definition input_of (argv : list string) : string :=
  match argv with _ :: arg :: _ => arg | _ => sample_puzzles_file end.

(** The sample file can be opened and written. *)
Definition sample_written (menv : MainEnv) : bool :=
  bool_decide (sample_open menv = None ∧ sample_write menv = None).

Definition is_sample_event (e : MainEvent) : bool :=
  match e with
  | OpenSample _ _ | WriteSample _ _ _ | CloseSample _ => true
  | _ => false
  end.

(** What is done to the sample file, in order. *)
Definition sample_events (tr : list MainEvent) : list MainEvent :=
  omap (λ e, if is_sample_event e then Some e else None) tr.

(** * Properties *)

(** ** get_maia_top_move *)

(** C4: [get_maia_top_move] builds the board of the FEN string and asks the
    engine about that board, once, with a node limit of 1.  When the answer
    has a non-empty principal variation the result is its first move and
    nothing is printed.  When building the board or the analysis raises,
    and when the answer has no principal variation or an empty one, the
    result is [None] and the last thing done is printing a message. *)
Theorem get_maia_top_move_spec (env : Env) (k : nat) (fen_str : string) :
  (∀ board info m rest,
     chess_Board env fen_str = Return board →
     engine_analyse env k board = Return info →
     pv info = Some (m :: rest) →
     get_maia_top_move env k fen_str
       = (Some m, [NewBoard fen_str; Analyse board 1]))
  ∧ (∀ e,
     chess_Board env fen_str = Raise e →
     get_maia_top_move env k fen_str
       = (None, [NewBoard fen_str;
                 Print (MsgAnalysisError fen_str (exn_msg e))]))
  ∧ (∀ board e,
     chess_Board env fen_str = Return board →
     engine_analyse env k board = Raise e →
     get_maia_top_move env k fen_str
       = (None, [NewBoard fen_str; Analyse board 1;
                 Print (MsgAnalysisError fen_str (exn_msg e))]))
  ∧ (∀ board info,
     chess_Board env fen_str = Return board →
     engine_analyse env k board = Return info →
     pv info = None ∨ pv info = Some [] →
     get_maia_top_move env k fen_str
       = (None, [NewBoard fen_str; Analyse board 1; Print MsgNoPv])).
Proof.
  unfold get_maia_top_move.
  split; [|split; [|split]].
  - intros board info m rest -> -> Hpv.
    unfold InfoDict_bool. by rewrite Hpv.
  - by intros e ->.
  - by intros board e -> ->.
  - intros board info -> -> [Hpv|Hpv]; unfold InfoDict_bool; rewrite Hpv.
    + by destruct (int_bool _).
    + done.
Qed.

Lemma get_maia_top_move_spec_witness :
  get_maia_top_move Sample.env 1 Sample.fen1
  = (Some Sample.Qd6,
     [NewBoard Sample.fen1; Analyse {| board_fen := Sample.fen1 |} 1])
  ∧ get_maia_top_move Sample.env_bad_fen 1 Sample.fen1
    = (None,
       [NewBoard Sample.fen1;
        Print (MsgAnalysisError Sample.fen1 "invalid fen")])
  ∧ get_maia_top_move
      (Sample.env_answering (Raise (EngineTerminatedError "engine died")))
      1 Sample.fen1
    = (None,
       [NewBoard Sample.fen1; Analyse {| board_fen := Sample.fen1 |} 1;
        Print (MsgAnalysisError Sample.fen1 "engine died")])
  ∧ get_maia_top_move
      (Sample.env_answering (Return {| pv := Some []; other_entries := 2 |}))
      1 Sample.fen1
    = (None,
       [NewBoard Sample.fen1; Analyse {| board_fen := Sample.fen1 |} 1;
        Print MsgNoPv]).
Proof.
  split; [|split; [|split]].
  - eapply (proj1 (get_maia_top_move_spec Sample.env 1 Sample.fen1));
      reflexivity.
  - exact (proj1 (proj2
             (get_maia_top_move_spec Sample.env_bad_fen 1 Sample.fen1))
             (OtherException "invalid fen") eq_refl).
  - exact (proj1 (proj2 (proj2
             (get_maia_top_move_spec
                (Sample.env_answering
                   (Raise (EngineTerminatedError "engine died")))
                1 Sample.fen1)))
             {| board_fen := Sample.fen1 |}
             (EngineTerminatedError "engine died") eq_refl eq_refl).
  - exact (proj2 (proj2 (proj2
             (get_maia_top_move_spec
                (Sample.env_answering
                   (Return {| pv := Some []; other_entries := 2 |}))
                1 Sample.fen1)))
             {| board_fen := Sample.fen1 |}
             {| pv := Some []; other_entries := 2 |} eq_refl eq_refl
             (or_intror eq_refl)).
Defined.

(** ** One record *)

Lemma list_ne_snoc {A} (l : list A) (x : A) : l ≠ l ++ [x].
Proof.
  intros H. apply (f_equal length) in H. rewrite length_app in H.
  simpl in H. lia.
Qed.

(** What [loop_body] does with a record that passes the three tests. *)
Lemma loop_body_classified (env : Env) (eb hb : string) (st : State)
    (game : Game) (sol : Move) (rest : list Move) (top : Move) :
  let n := processed_puzzles_count st + 1 in
  let pgn := string_exporter env game in
  let id := puzzle_id n game in
  let ev_maia := (get_maia_top_move env n (fen_of game)).2 in
  opt_str_bool (headers game !! "FEN") = true →
  mainline_moves game = sol :: rest →
  top_move env n game = Some top →
  Move_bool top = true →
  loop_body env eb hb st game
  = if bool_decide (sol = top) then
      let bw := write_batch env n Easy eb pgn (easy st) in
      (append_easy pgn bw.1 (count_processed st),
       [Print (MsgProcessing id)] ++ ev_maia ++ [Print (MsgEasy id)] ++ bw.2)
    else
      let bw := write_batch env n Hard hb pgn (hard st) in
      (append_hard pgn bw.1 (count_processed st),
       [Print (MsgProcessing id)] ++ ev_maia
       ++ [NewBoard (fen_of game);
           Print (MsgHard id (board_san env (fen_of game) sol)
                    (board_san env (fen_of game) top))]
       ++ bw.2).
Proof.
  intros n pgn id ev_maia Hfen Hmain Htop Hbool.
  unfold loop_body. rewrite Hfen, Hmain. simpl negb.
  rewrite andb_false_r. simpl.
  unfold top_move, fen_of in Htop. fold n.
  subst ev_maia. unfold fen_of.
  destruct (get_maia_top_move env n (default "" (headers game !! "FEN")))
    as [o evm] eqn:Hg.
  simpl in Htop. subst o. rewrite Hbool. simpl.
  subst pgn id n.
  case_bool_decide.
  - by destruct (write_batch _ _ Easy _ _ _).
  - by destruct (write_batch _ _ Hard _ _ _).
Qed.

(** C1: a record with a non-empty FEN header and a mainline, for which
    the engine's top move passes the test of line 122, is classified easy
    exactly when that move equals the first mainline move, and hard
    exactly when it does not. *)
Theorem classified_easy_iff_moves_equal (env : Env) (eb hb : string)
    (st : State) (game : Game) (sol : Move) (rest : list Move) (top : Move) :
  opt_str_bool (headers game !! "FEN") = true →
  mainline_moves game = sol :: rest →
  top_move env (processed_puzzles_count st + 1) game = Some top →
  Move_bool top = true →
  let st' := (loop_body env eb hb st game).1 in
  let pgn := string_exporter env game in
  (classified_as Easy pgn st st' ↔ top = sol)
  ∧ (classified_as Hard pgn st st' ↔ top ≠ sol).
Proof.
  intros Hfen Hmain Htop Hbool st' pgn. subst st'.
  rewrite (loop_body_classified env eb hb st game sol rest top) by done.
  case_bool_decide as Heq; simpl.
  - subst top. split; split; try done.
    intros [H _]. by apply list_ne_snoc in H.
  - split; split; try done.
    intros [H _]. by apply list_ne_snoc in H.
Qed.

Lemma classified_easy_iff_moves_equal_witness :
  let st' :=
    (loop_body Sample.env "easy" "hard" initial_state Sample.puzzle1).1 in
  (classified_as Easy "Puzzle 1 (Easy Example)" initial_state st'
   ↔ Sample.Qd6 = Sample.Qd6)
  ∧ (classified_as Hard "Puzzle 1 (Easy Example)" initial_state st'
     ↔ Sample.Qd6 ≠ Sample.Qd6).
Proof.
  apply (classified_easy_iff_moves_equal Sample.env "easy" "hard"
           initial_state Sample.puzzle1 Sample.Qd6 [] Sample.Qd6);
    reflexivity.
Defined.

Lemma passes_inv (env : Env) (n : nat) (game : Game) :
  passes env n game = true →
  ∃ sol rest top,
    opt_str_bool (headers game !! "FEN") = true
    ∧ mainline_moves game = sol :: rest
    ∧ top_move env n game = Some top
    ∧ Move_bool top = true.
Proof.
  unfold passes. intros H.
  apply andb_true_iff in H as [H Hu]. apply andb_true_iff in H as [Hf Hm].
  apply bool_decide_eq_true in Hm.
  destruct (mainline_moves game) as [|sol rest]; [done|].
  destruct (top_move env n game) as [top|]; [|done].
  by exists sol, rest, top.
Qed.

(** The events of [get_maia_top_move] touch no output file. *)
Lemma get_maia_top_move_events (env : Env) (k : nat) (fen_str : string) :
  Forall (λ e, is_file_event e = false) (get_maia_top_move env k fen_str).2.
Proof.
  unfold get_maia_top_move.
  destruct (chess_Board env fen_str) as [board|e]; simpl.
  - destruct (engine_analyse env k board) as [info|e]; simpl.
    + destruct (InfoDict_bool info), (pv info) as [[|m l]|]; simpl;
        repeat constructor.
    + repeat constructor.
  - repeat constructor.
Qed.

(** What [loop_body] does with a record that fails one of the three tests:
    the two counters go up by one, nothing else changes, no output file is
    touched and one of the skip messages is printed. *)
Lemma loop_body_skipped (env : Env) (eb hb : string) (st : State)
    (game : Game) :
  passes env (processed_puzzles_count st + 1) game = false →
  ∃ ev,
    loop_body env eb hb st game = (count_error (count_processed st), ev)
    ∧ Forall (λ e, is_file_event e = false) ev
    ∧ (∃ m, skip_message m = true ∧ Print m ∈ ev).
Proof.
  unfold passes, loop_body, top_move, fen_of. simpl.
  pose proof (get_maia_top_move_events env (processed_puzzles_count st + 1)
                (default "" (headers game !! "FEN"))) as Hev.
  destruct (opt_str_bool (headers game !! "FEN")) eqn:Hfen; simpl.
  - rewrite andb_false_r.
    destruct (mainline_moves game) as [|sol rest] eqn:Hmain; simpl.
    + intros _. eexists. split; [done|]. split.
      * destruct (errors game); repeat constructor.
      * eexists (MsgNoSolution _). split; [done|].
        apply elem_of_cons. right. apply elem_of_cons. by left.
    + destruct (get_maia_top_move _ _ _) as [o evm]. simpl in *.
      intros Hu.
      assert (Hskip : Forall (λ e, is_file_event e = false)
                (Print (MsgProcessing
                          (puzzle_id (processed_puzzles_count st + 1) game))
                 :: evm
                 ++ [Print (MsgNoTopMove
                          (puzzle_id (processed_puzzles_count st + 1)
                             game))])).
      { constructor; [done|]. apply Forall_app. split; [done|].
        by repeat constructor. }
      destruct o as [top|]; simpl in Hu; [rewrite Hu; simpl|].
      * eexists. split; [done|]. split; [done|].
        eexists (MsgNoTopMove _). split; [done|].
        apply elem_of_cons. right. apply elem_of_app. right.
        by apply list_elem_of_singleton.
      * eexists. split; [done|]. split; [done|].
        eexists (MsgNoTopMove _). split; [done|].
        apply elem_of_cons. right. apply elem_of_app. right.
        by apply list_elem_of_singleton.
  - intros _. case_bool_decide; simpl.
    + eexists. split; [done|]. split; [by repeat constructor|].
      eexists (MsgSetUpWithoutFen _). split; [done|].
      apply elem_of_cons. right. by apply list_elem_of_singleton.
    + eexists. split; [done|]. split; [by repeat constructor|].
      eexists (MsgFenNotFound _). split; [done|].
      apply elem_of_cons. right. by apply list_elem_of_singleton.
Qed.

(** The null move is false at line 122: a record for which the engine
    answers it is skipped like one without an answer. *)
Example null_top_move_is_skipped :
  (loop_body
     (Sample.env_answering
        (Return {| pv := Some [Sample.null_move]; other_entries := 0 |}))
     "easy" "hard" initial_state Sample.puzzle1).1
  = count_error (count_processed initial_state).
Proof. reflexivity. Qed.

(** C10: a record whose header mapping has no FEN entry is skipped as an
    error whatever its SetUp header and whatever its moves: only the two
    counters change, the engine is not asked and the record goes to neither
    list.  The SetUp header only selects the message. *)
Theorem no_fen_header_skipped (env : Env) (eb hb : string) (st : State)
    (game : Game) :
  headers game !! "FEN" = None →
  let id := puzzle_id (processed_puzzles_count st + 1) game in
  let r := loop_body env eb hb st game in
  r = (count_error (count_processed st),
       [Print (MsgProcessing id);
        Print (if bool_decide (headers game !! "SetUp" = Some "1")
               then MsgSetUpWithoutFen id else MsgFenNotFound id)])
  ∧ error_puzzles_count r.1 = error_puzzles_count st + 1
  ∧ easy_puzzles_pgn_strings r.1 = easy_puzzles_pgn_strings st
  ∧ hard_puzzles_pgn_strings r.1 = hard_puzzles_pgn_strings st
  ∧ analyses r.2 = [].
Proof.
  intros Hfen id r. subst r id. unfold loop_body. rewrite Hfen. simpl.
  rewrite andb_true_r. by case_bool_decide.
Qed.

Lemma no_fen_header_skipped_witness :
  (loop_body Sample.env "easy" "hard" initial_state Sample.no_fen).1
  = count_error (count_processed initial_state).
Proof.
  exact (f_equal fst
           (proj1 (no_fen_header_skipped Sample.env "easy" "hard"
                     initial_state Sample.no_fen eq_refl))).
Defined.

(** C6: a record that fails validation (no FEN header or an empty one, no
    mainline move) or for which the engine gives no usable top move is
    skipped: a skip message is printed, [error_puzzles_count] goes up by
    one, the lists and the batch files are left alone, and the loop goes on
    with the next record from the state so reached. *)
Theorem failed_record_skipped (env : Env) (eb hb : string) (st : State)
    (game : Game) :
  opt_str_bool (headers game !! "FEN") = false
  ∨ mainline_moves game = []
  ∨ usable (top_move env (processed_puzzles_count st + 1) game) = false →
  let r := loop_body env eb hb st game in
  r.1 = count_error (count_processed st)
  ∧ error_puzzles_count r.1 = error_puzzles_count st + 1
  ∧ (∃ m, skip_message m = true ∧ Print m ∈ r.2)
  ∧ Forall (λ e, is_file_event e = false) r.2
  ∧ ∀ rest,
      read_games env eb hb (Return game :: rest) st
      = let '(st2, ev2, raised) := read_games env eb hb rest r.1 in
        (st2, ReadGame :: r.2 ++ ev2, raised).
Proof.
  intros H r.
  assert (Hp : passes env (processed_puzzles_count st + 1) game = false).
  { unfold passes. destruct H as [->|[->| ->]]; [done| |].
    - by rewrite andb_false_r.
    - by rewrite andb_false_r. }
  destruct (loop_body_skipped env eb hb st game Hp) as (ev & Hr & Hev & Hm).
  subst r. rewrite Hr. simpl. repeat split; try done.
  intros rest. by rewrite Hr.
Qed.

Lemma failed_record_skipped_witness :
  (loop_body Sample.env "easy" "hard" initial_state
     (Sample.puzzle "No moves" Sample.fen1 [])).1
  = count_error (count_processed initial_state).
Proof.
  apply (failed_record_skipped Sample.env "easy" "hard" initial_state
           (Sample.puzzle "No moves" Sample.fen1 [])).
  right. left. reflexivity.
Defined.

(** C5: the move compared with the engine's is the head of the mainline
    the input file gave, whatever it is: nothing is assumed of [sol], no
    other mainline move is looked at, and a record that passed the three
    tests is never counted as an error because of its solution. *)
Theorem solution_is_first_mainline_move (env : Env) (eb hb : string)
    (st : State) (game : Game) (sol : Move) (rest : list Move) (top : Move) :
  opt_str_bool (headers game !! "FEN") = true →
  mainline_moves game = sol :: rest →
  top_move env (processed_puzzles_count st + 1) game = Some top →
  Move_bool top = true →
  let r := loop_body env eb hb st game in
  classified_as (compare_moves sol top) (string_exporter env game) st r.1
  ∧ error_puzzles_count r.1 = error_puzzles_count st
  ∧ ∀ game' rest',
      headers game' = headers game →
      mainline_moves game' = sol :: rest' →
      classified_as (compare_moves sol top) (string_exporter env game') st
        (loop_body env eb hb st game').1.
Proof.
  intros Hfen Hmain Htop Hbool r. subst r.
  assert (Hall : ∀ game' rest',
            headers game' = headers game →
            mainline_moves game' = sol :: rest' →
            let r := loop_body env eb hb st game' in
            classified_as (compare_moves sol top) (string_exporter env game')
              st r.1
            ∧ error_puzzles_count r.1 = error_puzzles_count st).
  { intros game' rest' Hh Hm r. subst r.
    rewrite (loop_body_classified env eb hb st game' sol rest' top).
    - unfold compare_moves. by case_bool_decide.
    - by rewrite Hh.
    - done.
    - unfold top_move, fen_of in *. by rewrite Hh.
    - done. }
  split; [|split].
  - by apply (Hall game rest).
  - by apply (Hall game rest).
  - intros game' rest' Hh Hm. by apply (Hall game' rest').
Qed.

Lemma solution_is_first_mainline_move_witness :
  classified_as Hard "Puzzle 2 (Hard Example)" initial_state
    (loop_body Sample.env "easy" "hard" initial_state
       (Sample.puzzle "Puzzle 2 (Hard Example)" Sample.start_fen
          [Sample.null_move; Sample.d4])).1.
Proof.
  apply (solution_is_first_mainline_move Sample.env "easy" "hard"
           initial_state
           (Sample.puzzle "Puzzle 2 (Hard Example)" Sample.start_fen
              [Sample.null_move; Sample.d4])
           Sample.null_move [Sample.d4] Sample.e4);
    reflexivity.
Defined.

Lemma get_maia_top_move_Some (env : Env) (k : nat) (fen_str : string)
    (top : Move) :
  (get_maia_top_move env k fen_str).1 = Some top →
  ∃ board info rest,
    chess_Board env fen_str = Return board
    ∧ engine_analyse env k board = Return info
    ∧ pv info = Some (top :: rest)
    ∧ (get_maia_top_move env k fen_str).2
      = [NewBoard fen_str; Analyse board 1].
Proof.
  unfold get_maia_top_move.
  destruct (chess_Board env fen_str) as [board|e] eqn:HB; [|done].
  destruct (engine_analyse env k board) as [info|e] eqn:HA; [|done].
  destruct (InfoDict_bool info), (pv info) as [[|m l]|] eqn:Hpv; try done.
  simpl. intros [= ->]. by exists board, info, l.
Qed.

(** The events of [write_batch] for stream [s]: none touches the other
    stream, none is an analysis, and the record is written once to a file
    of [s] unless opening the new batch file failed. *)
Lemma write_batch_events (env : Env) (k : nat) (s : Stream)
    (base pgn : string) (b : Batch) :
  let ev := (write_batch env k s base pgn b).2 in
  Forall (neutral (other s)) ev
  ∧ analyses ev = []
  ∧ ((∃ name, writes ev = [(s, name, written_data pgn, true)])
     ∨ (∃ name, writes ev = [(s, name, written_data pgn, false)])
     ∨ (writes ev = [] ∧ ∃ name, OpenOutput s name false ∈ ev)).
Proof.
  assert (Hs : s ≠ other s) by by destruct s.
  unfold write_batch, rotate, write_current, written_data.
  destruct (bool_decide (f b = None)
            || (PUZZLES_PER_BATCH <=? puzzles_in_current_batch b)) eqn:Hrot.
  - destruct (open_output env k _) as [e|] eqn:Hopen; simpl.
    + split; [|split].
      * destruct (f b); repeat constructor; done.
      * by destruct (f b).
      * right. right. split; [by destruct (f b)|].
        exists (batch_filename base (batch_num b + 1)).
        destruct (f b); simpl; rewrite !elem_of_cons; auto 10.
    + destruct (file_write env k _ _) as [e|]; simpl.
      * split; [|split].
        -- destruct (f b); repeat constructor; done.
        -- by destruct (f b).
        -- right. left. eexists. by destruct (f b).
      * split; [|split].
        -- destruct (f b); repeat constructor; done.
        -- by destruct (f b).
        -- left. eexists. by destruct (f b).
  - apply orb_false_iff in Hrot as [Hf _].
    apply bool_decide_eq_false in Hf.
    destruct (f b) as [name|]; [|done]. simpl.
    destruct (file_write env k _ _) as [e|]; simpl.
    + split; [|split]; [repeat constructor; done|done|].
      right. left. by eexists.
    + split; [|split]; [repeat constructor; done|done|].
      left. by eexists.
Qed.

Lemma analyses_app (l1 l2 : list Event) :
  analyses (l1 ++ l2) = analyses l1 ++ analyses l2.
Proof. apply omap_app. Qed.

Lemma writes_app (l1 l2 : list Event) :
  writes (l1 ++ l2) = writes l1 ++ writes l2.
Proof. apply omap_app. Qed.

Lemma neutral_not_file_event (s : Stream) (e : Event) :
  is_file_event e = false → neutral s e.
Proof. by destruct e. Qed.

Lemma writes_not_file_events (ev : list Event) :
  Forall (λ e, is_file_event e = false) ev → writes ev = [].
Proof.
  induction 1 as [|e ev He _ IH]; [done|].
  destruct e; first [done | exact IH].
Qed.

(** C3, as amended: a record that passes the three tests is analysed once,
    on the board of its FEN header, and goes to exactly one of the two
    lists; no file of the other stream is touched, and the record is
    written once to a batch file of its stream unless opening or writing
    that file fails.  Any other record goes to neither list and to no
    file: it is counted as an error. *)
Theorem record_classified_or_skipped (env : Env) (eb hb : string)
    (st : State) (game : Game) :
  let r := loop_body env eb hb st game in
  let pgn := string_exporter env game in
  if passes env (processed_puzzles_count st + 1) game then
    (∃ board,
       chess_Board env (fen_of game) = Return board
       ∧ analyses r.2 = [(board, 1)])
    ∧ ∃ s,
        classified_as s pgn st r.1
        ∧ ¬ classified_as (other s) pgn st r.1
        ∧ Forall (neutral (other s)) r.2
        ∧ ((∃ name, writes r.2 = [(s, name, written_data pgn, true)])
           ∨ (∃ name, writes r.2 = [(s, name, written_data pgn, false)])
           ∨ (writes r.2 = [] ∧ ∃ name, OpenOutput s name false ∈ r.2))
  else
    r.1 = count_error (count_processed st)
    ∧ Forall (λ e, is_file_event e = false) r.2.
Proof.
  intros r pgn. subst r.
  destruct (passes env (processed_puzzles_count st + 1) game) eqn:Hp.
  - destruct (passes_inv _ _ _ Hp) as (sol & rest & top & Hfen & Hm & Ht & Hb).
    rewrite (loop_body_classified env eb hb st game sol rest top) by done.
    destruct (get_maia_top_move_Some _ _ _ _ Ht)
      as (board & info & l & HB & _ & _ & Hev).
    rewrite Hev.
    split.
    { exists board. split; [done|].
      case_bool_decide; cbv zeta; unfold snd at 1;
        match goal with
        | |- context [write_batch ?e ?k ?s ?b ?p ?x] =>
            destruct (write_batch_events e k s b p x) as (_ & Ha & _)
        end; rewrite !analyses_app, Ha; done. }
    case_bool_decide; simpl.
    + exists Easy.
      destruct (write_batch_events env (processed_puzzles_count st + 1) Easy
                  eb pgn (easy (count_processed st))) as (Hn & _ & Hw).
      split; [done|]. split.
      { intros [Hx _]. by apply list_ne_snoc in Hx. }
      split; [by repeat constructor|].
      destruct Hw as [Hw|[Hw|[Hw [name Hin]]]]; [by left|by right; left|].
      right. right. split; [done|]. exists name.
      rewrite !elem_of_cons. auto 10.
    + exists Hard.
      destruct (write_batch_events env (processed_puzzles_count st + 1) Hard
                  hb pgn (hard (count_processed st))) as (Hn & _ & Hw).
      split; [done|]. split.
      { intros [Hx _]. by apply list_ne_snoc in Hx. }
      split; [by repeat constructor|].
      destruct Hw as [Hw|[Hw|[Hw [name Hin]]]]; [by left|by right; left|].
      right. right. split; [done|]. exists name.
      rewrite !elem_of_cons. auto 10.
  - destruct (loop_body_skipped env eb hb st game Hp) as (ev & -> & Hev & _).
    done.
Qed.

(** C3 as written fails: the sample game without a FEN tag is read, but
    the engine is not asked about it and it reaches neither list and no
    file. *)
Lemma no_fen_record_not_appended :
  ¬ analysed_and_appended Sample.env "easy" "hard" initial_state Sample.no_fen.
Proof.
  unfold analysed_and_appended. intros [[board Hin] _].
  vm_compute in Hin.
  repeat (apply elem_of_cons in Hin as [Hin|Hin]; [discriminate Hin|]).
  by apply elem_of_nil in Hin.
Qed.

(** ** Traces and the batch variables *)

Lemma at_every_event_nil (P : list Event → Event → Prop) :
  at_every_event P [].
Proof. intros pre e post H. by destruct pre. Qed.

Lemma at_every_event_snoc (P : list Event → Event → Prop)
    (tr : list Event) (e : Event) :
  at_every_event P tr → P tr e → at_every_event P (tr ++ [e]).
Proof.
  intros Htr He pre e' post Heq.
  destruct post as [|x post _] using rev_ind.
  - apply app_inj_tail in Heq as [-> ->]. done.
  - rewrite app_comm_cons, app_assoc in Heq.
    apply app_inj_tail in Heq as [Heq _].
    by apply (Htr pre e' post).
Qed.

Lemma opened_snoc (s : Stream) (tr : list Event) (e : Event) :
  opened s (tr ++ [e])
  = opened s tr
    ++ match e with
       | OpenOutput s' name _ => if decide (s' = s) then [name] else []
       | _ => []
       end.
Proof.
  unfold opened. rewrite omap_app. f_equal.
  destruct e; try done. simpl. by case_decide.
Qed.

Lemma open_files_snoc (s : Stream) (tr : list Event) (e : Event) :
  open_files s (tr ++ [e]) = track_open s (open_files s tr) e.
Proof. unfold open_files. by rewrite fold_left_app. Qed.

Lemma batch_sizes_snoc (s : Stream) (tr : list Event) (e : Event) :
  batch_sizes s (tr ++ [e]) = count_write s (batch_sizes s tr) e.
Proof. unfold batch_sizes. by rewrite fold_left_app. Qed.

Section one_stream.
Context (s : Stream) (base_name : string).

Lemma batch_inv_nil : batch_inv s base_name [] initial_batch.
Proof.
  split; try done. apply at_every_event_nil.
Qed.

(** An event of another kind or of the other stream changes nothing. *)
Lemma batch_inv_neutral (tr : list Event) (b : Batch) (e : Event) :
  batch_inv s base_name tr b → neutral s e →
  batch_inv s base_name (tr ++ [e]) b.
Proof.
  intros [H1 H2 H3 H4 H5 H6] Hn.
  assert (Ho : opened s (tr ++ [e]) = opened s tr).
  { rewrite opened_snoc. destruct e; simpl in *; rewrite ?app_nil_r; try done.
    by rewrite decide_False, app_nil_r. }
  assert (Hf : open_files s (tr ++ [e]) = open_files s tr).
  { rewrite open_files_snoc. destruct e; simpl in *; try done.
    - destruct ok; [|done]. by rewrite decide_False.
    - by rewrite decide_False. }
  assert (Hb : batch_sizes s (tr ++ [e]) = batch_sizes s tr).
  { rewrite batch_sizes_snoc. destruct e; simpl in *; try done.
    - by rewrite decide_False.
    - destruct ok; [|done]. by rewrite decide_False. }
  split; rewrite ?Ho, ?Hf, ?Hb; try done.
  apply at_every_event_snoc; [done|].
  destruct e; simpl in *; done.
Qed.

Lemma batch_inv_neutral_list (ev tr : list Event) (b : Batch) :
  batch_inv s base_name tr b → Forall (neutral s) ev →
  batch_inv s base_name (tr ++ ev) b.
Proof.
  revert tr. induction ev as [|e ev IH]; intros tr Hinv Hev.
  - by rewrite app_nil_r.
  - apply Forall_cons in Hev as [He Hev].
    rewrite cons_middle, app_assoc. apply IH; [|done].
    by apply batch_inv_neutral.
Qed.

(** [f.close()] on the open file. *)
Lemma batch_inv_close (tr : list Event) (b : Batch) (name : string) :
  batch_inv s base_name tr b → f b = Some name →
  batch_inv s base_name (tr ++ [CloseOutput s name]) (closed b).
Proof.
  intros [H1 H2 H3 H4 H5 H6] Hf. rewrite Hf in H2. simpl in H2.
  split; rewrite ?opened_snoc, ?open_files_snoc, ?batch_sizes_snoc; simpl;
    rewrite ?app_nil_r, ?decide_True by done; try done.
  - rewrite H2. simpl. by rewrite decide_True.
  - apply at_every_event_snoc; [done|]. by intros _.
Qed.

(** Opening the next batch file when none is open. *)
Lemma batch_inv_open (tr : list Event) (b : Batch) (ok : bool) :
  batch_inv s base_name tr b → f b = None →
  let name := batch_filename base_name (batch_num b + 1) in
  batch_inv s base_name (tr ++ [OpenOutput s name ok])
    {| batch_num := batch_num b + 1;
       puzzles_in_current_batch := 0;
       f := if ok then Some name else None |}.
Proof.
  intros [H1 H2 H3 H4 H5 H6] Hf name. rewrite Hf in H2. simpl in H2.
  split; rewrite ?opened_snoc, ?open_files_snoc, ?batch_sizes_snoc; simpl;
    rewrite ?decide_True by done.
  - rewrite H1, seq_app, map_app. simpl. subst name.
    by rewrite (Nat.add_comm (batch_num b) 1).
  - rewrite H2. by destruct ok.
  - intros name' Hn. rewrite last_snoc. by destruct ok.
  - done.
  - constructor; [unfold PUZZLES_PER_BATCH; lia|done].
  - apply at_every_event_snoc; [done|]. intros _. split; [done|].
    by rewrite H1, length_map, length_seq.
Qed.

(** Writing a puzzle to the open file while it holds fewer than
    [PUZZLES_PER_BATCH] puzzles. *)
Lemma batch_inv_write (tr : list Event) (b : Batch) (name data : string)
    (ok : bool) :
  batch_inv s base_name tr b → f b = Some name →
  puzzles_in_current_batch b < PUZZLES_PER_BATCH →
  batch_inv s base_name (tr ++ [WriteOutput s name data ok])
    {| batch_num := batch_num b;
       puzzles_in_current_batch :=
         if ok then puzzles_in_current_batch b + 1
         else puzzles_in_current_batch b;
       f := f b |}.
Proof.
  intros [H1 H2 H3 H4 H5 H6] Hf Hlt.
  split; rewrite ?opened_snoc, ?open_files_snoc, ?batch_sizes_snoc; simpl;
    rewrite ?app_nil_r; try done.
  - destruct ok; [|done]. rewrite decide_True by done.
    destruct (batch_sizes s tr); simpl in *; lia.
  - destruct ok; [|done]. rewrite decide_True by done.
    destruct (batch_sizes s tr) as [|n r]; simpl in *.
    + constructor; [unfold PUZZLES_PER_BATCH; lia|constructor].
    + apply Forall_cons in H5 as [_ H5]. constructor; [lia|done].
  - apply at_every_event_snoc; [done|]. intros _.
    rewrite H2, Hf, H4. split; [done|]. split; [by apply H3|done].
Qed.

End one_stream.

Section write_batch_invariant.
Context (env : Env) (k : nat) (s : Stream) (base_name : string).

Lemma rotate_inv (tr : list Event) (b : Batch) :
  batch_inv s base_name tr b →
  let r := rotate env k s base_name b in
  batch_inv s base_name (tr ++ r.2) r.1
  ∧ (f r.1 ≠ None → puzzles_in_current_batch r.1 < PUZZLES_PER_BATCH).
Proof.
  intros Hinv. unfold rotate.
  destruct (bool_decide (f b = None)
            || (PUZZLES_PER_BATCH <=? puzzles_in_current_batch b)) eqn:Hrot.
  - assert (Hc : ∃ closing,
               match f b with
               | Some name => [CloseOutput s name; Print (MsgClosed s name)]
               | None => []
               end = closing
               ∧ batch_inv s base_name (tr ++ closing) (closed b)).
    { destruct (f b) as [name|] eqn:Hf.
      - eexists. split; [done|].
        pose proof (batch_inv_close s base_name tr b name Hinv Hf) as H1.
        pose proof (batch_inv_neutral s base_name _ _
                      (Print (MsgClosed s name)) H1 I) as H2.
        by rewrite <- !app_assoc in H2.
      - exists []. split; [done|]. rewrite app_nil_r.
        destruct Hinv as [H1 H2 H3 H4 H5 H6]. rewrite Hf in H2.
        by split. }
    destruct Hc as (closing & -> & Hclosed).
    destruct (open_output env k (batch_filename base_name (batch_num b + 1)))
      as [e|] eqn:Hopen; simpl.
    + split; [|done].
      pose proof (batch_inv_open s base_name _ _ false Hclosed eq_refl) as H1.
      pose proof (batch_inv_neutral s base_name _ _
                    (Print (MsgOpenError s
                              (batch_filename base_name (batch_num b + 1)) e))
                    H1 I) as H2.
      by rewrite <- !app_assoc in H2.
    + split; [|unfold PUZZLES_PER_BATCH; lia].
      pose proof (batch_inv_open s base_name _ _ true Hclosed eq_refl) as H1.
      pose proof (batch_inv_neutral s base_name _ _
                    (Print (MsgOpened s
                              (batch_filename base_name (batch_num b + 1))))
                    H1 I) as H2.
      by rewrite <- !app_assoc in H2.
  - simpl. rewrite app_nil_r. split; [done|]. intros _.
    apply orb_false_iff in Hrot as [_ Hle]. by apply Nat.leb_gt in Hle.
Qed.

Lemma write_current_inv (pgn : string) (tr : list Event) (b : Batch) :
  batch_inv s base_name tr b →
  (f b ≠ None → puzzles_in_current_batch b < PUZZLES_PER_BATCH) →
  let r := write_current env k s pgn b in
  batch_inv s base_name (tr ++ r.2) r.1.
Proof.
  intros Hinv Hlt. unfold write_current.
  destruct (f b) as [name|] eqn:Hf; simpl; [|by rewrite app_nil_r].
  specialize (Hlt ltac:(done)).
  destruct (file_write env k name _) as [e|]; simpl.
  - pose proof (batch_inv_write s base_name tr b name
                  (pgn +:+ newline +:+ newline) false Hinv Hf Hlt) as H1.
    pose proof (batch_inv_neutral s base_name _ _
                  (Print (MsgWriteError s name e)) H1 I) as H2.
    rewrite <- !app_assoc in H2. simpl in H2.
    by destruct b.
  - pose proof (batch_inv_write s base_name tr b name
                  (pgn +:+ newline +:+ newline) true Hinv Hf Hlt) as H1.
    by rewrite Hf in H1.
Qed.

Lemma write_batch_inv (pgn : string) (tr : list Event) (b : Batch) :
  batch_inv s base_name tr b →
  let r := write_batch env k s base_name pgn b in
  batch_inv s base_name (tr ++ r.2) r.1.
Proof.
  intros Hinv. unfold write_batch.
  destruct (rotate_inv tr b Hinv) as [H1 Hlt].
  destruct (rotate env k s base_name b) as [b1 ev1]. simpl in *.
  pose proof (write_current_inv pgn _ _ H1 Hlt) as H2.
  destruct (write_current env k s pgn b1) as [b2 ev2]. simpl in *.
  by rewrite app_assoc.
Qed.

End write_batch_invariant.

(** ** The invariant along the run *)

Lemma quiet_neutral (s : Stream) (ev : list Event) :
  Forall (λ e, is_file_event e = false) ev → Forall (neutral s) ev.
Proof.
  intros H. eapply Forall_impl; [exact H|].
  intros e. apply neutral_not_file_event.
Qed.

Lemma loop_inv_quiet (eb hb : string) (tr ev : list Event) (st : State) :
  loop_inv eb hb tr st →
  Forall (λ e, is_file_event e = false) ev →
  loop_inv eb hb (tr ++ ev) st.
Proof.
  intros (He & Hh & Hc) Hev.
  split; [|split]; [| |done];
    by apply batch_inv_neutral_list; [|apply quiet_neutral].
Qed.

Lemma loop_body_inv (env : Env) (eb hb : string) (tr : list Event)
    (st : State) (game : Game) :
  loop_inv eb hb tr st →
  let r := loop_body env eb hb st game in
  loop_inv eb hb (tr ++ r.2) r.1.
Proof.
  intros Hinv r. subst r.
  destruct (passes env (processed_puzzles_count st + 1) game) eqn:Hp.
  - destruct (passes_inv _ _ _ Hp) as (sol & rest & top & Hfen & Hm & Ht & Hb).
    rewrite (loop_body_classified env eb hb st game sol rest top) by done.
    pose proof (get_maia_top_move_events env (processed_puzzles_count st + 1)
                  (fen_of game)) as Hmaia.
    set (n := processed_puzzles_count st + 1) in *.
    set (pgn := string_exporter env game).
    case_bool_decide; cbv zeta; unfold fst at 1, snd at 1.
    + set (pre := [Print (MsgProcessing (puzzle_id n game))]
                  ++ (get_maia_top_move env n (fen_of game)).2
                  ++ [Print (MsgEasy (puzzle_id n game))]).
      assert (Hpre : Forall (λ e, is_file_event e = false) pre).
      { subst pre. repeat (apply Forall_app; split); try done;
          by repeat constructor. }
      apply (loop_inv_quiet eb hb tr pre st Hinv) in Hpre
        as (He & Hh & Hc).
      destruct (write_batch_events env n Easy eb pgn (easy st))
        as (Hn & _ & _).
      pose proof (write_batch_inv env n Easy eb pgn _ _ He) as Hw.
      replace (tr ++ [Print (MsgProcessing (puzzle_id n game))]
                  ++ (get_maia_top_move env n (fen_of game)).2
                  ++ [Print (MsgEasy (puzzle_id n game))]
                  ++ (write_batch env n Easy eb pgn (easy st)).2)
        with ((tr ++ pre) ++ (write_batch env n Easy eb pgn (easy st)).2)
        by (subst pre; by rewrite <- !app_assoc).
      split; [done|]. split; [by apply batch_inv_neutral_list|].
      unfold counts_partition in *. simpl. rewrite length_app. simpl. lia.
    + set (pre := [Print (MsgProcessing (puzzle_id n game))]
                  ++ (get_maia_top_move env n (fen_of game)).2
                  ++ [NewBoard (fen_of game);
                      Print (MsgHard (puzzle_id n game)
                               (board_san env (fen_of game) sol)
                               (board_san env (fen_of game) top))]).
      assert (Hpre : Forall (λ e, is_file_event e = false) pre).
      { subst pre. repeat (apply Forall_app; split); try done;
          by repeat constructor. }
      apply (loop_inv_quiet eb hb tr pre st Hinv) in Hpre
        as (He & Hh & Hc).
      destruct (write_batch_events env n Hard hb pgn (hard st))
        as (Hn & _ & _).
      pose proof (write_batch_inv env n Hard hb pgn _ _ Hh) as Hw.
      replace (tr ++ [Print (MsgProcessing (puzzle_id n game))]
                  ++ (get_maia_top_move env n (fen_of game)).2
                  ++ [NewBoard (fen_of game);
                      Print (MsgHard (puzzle_id n game)
                               (board_san env (fen_of game) sol)
                               (board_san env (fen_of game) top))]
                  ++ (write_batch env n Hard hb pgn (hard st)).2)
        with ((tr ++ pre) ++ (write_batch env n Hard hb pgn (hard st)).2)
        by (subst pre; by rewrite <- !app_assoc).
      split; [by apply batch_inv_neutral_list|]. split; [done|].
      unfold counts_partition in *. simpl. rewrite length_app. simpl. lia.
  - destruct (loop_body_skipped env eb hb st game Hp) as (ev & -> & Hev & _).
    apply (loop_inv_quiet eb hb tr ev st Hinv) in Hev as (He & Hh & Hc).
    split; [done|]. split; [done|].
    unfold counts_partition in *. simpl. lia.
Qed.

(** The body of the loop reads no game and leaves the engine and the
    input file alone. *)
Lemma loop_body_events (env : Env) (eb hb : string) (st : State)
    (game : Game) :
  Forall (λ e, is_lifecycle e = false ∧ e ≠ ReadGame)
    (loop_body env eb hb st game).2.
Proof.
  unfold loop_body, get_maia_top_move, write_batch, rotate, write_current.
  repeat case_match; simplify_eq; simpl; repeat constructor; done.
Qed.

Lemma loop_body_engine (env : Env) (eb hb : string) (st : State)
    (game : Game) :
  let r := loop_body env eb hb st game in
  engine r.1 = engine st
  ∧ processed_puzzles_count r.1 = processed_puzzles_count st + 1.
Proof.
  unfold loop_body. repeat case_match; simplify_eq; done.
Qed.

Lemma read_games_inv (env : Env) (eb hb : string)
    (pgn_file : list (Result Game)) (tr : list Event) (st : State) :
  loop_inv eb hb tr st →
  let r := read_games env eb hb pgn_file st in
  loop_inv eb hb (tr ++ r.1.2) r.1.1.
Proof.
  revert tr st. induction pgn_file as [|[game|e] rest IH]; intros tr st Hinv.
  - simpl. apply loop_inv_quiet; [done|by repeat constructor].
  - simpl.
    pose proof (loop_body_inv env eb hb (tr ++ [ReadGame]) st game) as Hb.
    destruct (loop_body env eb hb st game) as [st1 ev1]. simpl in *.
    specialize (IH ((tr ++ [ReadGame]) ++ ev1) st1).
    destruct (read_games env eb hb rest st1) as [[st2 ev2] r]. simpl in *.
    rewrite <- !app_assoc in IH. apply IH. rewrite !app_assoc.
    apply Hb. apply loop_inv_quiet; [done|by repeat constructor].
  - simpl. apply loop_inv_quiet; [done|by repeat constructor].
Qed.

(** The loop keeps [engine], counts the games it reads and leaves the
    engine and the input file alone. *)
Lemma read_games_events (env : Env) (eb hb : string)
    (pgn_file : list (Result Game)) (st : State) :
  let r := read_games env eb hb pgn_file st in
  engine r.1.1 = engine st
  ∧ processed_puzzles_count r.1.1
    = processed_puzzles_count st + games_read pgn_file
  ∧ Forall (λ e, is_lifecycle e = false) r.1.2.
Proof.
  revert st. induction pgn_file as [|[game|e] rest IH]; intros st.
  - simpl. split; [done|]. split; [lia|by repeat constructor].
  - simpl.
    pose proof (loop_body_engine env eb hb st game) as [He Hn].
    pose proof (loop_body_events env eb hb st game) as Hev.
    destruct (loop_body env eb hb st game) as [st1 ev1]. simpl in *.
    specialize (IH st1).
    destruct (read_games env eb hb rest st1) as [[st2 ev2] r]. simpl in *.
    destruct IH as (H2 & H3 & H4).
    split; [congruence|]. split; [lia|].
    constructor; [done|]. apply Forall_app. split; [|done].
    eapply Forall_impl; [exact Hev|]. by intros x [? _].
  - simpl. split; [done|]. split; [lia|by repeat constructor].
Qed.

(** ** Leaving process_pgn_file *)

Lemma batch_inv_closed (s : Stream) (base_name : string) (tr : list Event)
    (b : Batch) :
  batch_inv s base_name tr b →
  batch_inv s base_name (tr ++ close_final s (f b)) (closed b).
Proof.
  intros Hinv. destruct (f b) as [name|] eqn:Hf; simpl.
  - pose proof (batch_inv_close s base_name tr b name Hinv Hf) as H1.
    pose proof (batch_inv_neutral s base_name _ _
                  (Print (MsgClosedFinal s name)) H1 I) as H2.
    by rewrite <- !app_assoc in H2.
  - rewrite app_nil_r. destruct Hinv as [H1 H2 H3 H4 H5 H6].
    rewrite Hf in H2. by split.
Qed.

Lemma close_final_neutral (s s' : Stream) (file : option string) :
  s' ≠ s → Forall (neutral s) (close_final s' file).
Proof. intros Hs. destruct file; by repeat constructor. Qed.

(** After the [finally] block every file of the stream is closed. *)
Lemma finally_inv (eb hb : string) (tr : list Event) (st : State) :
  loop_inv eb hb tr st →
  batch_inv Easy eb (tr ++ finally st) (closed (easy st))
  ∧ batch_inv Hard hb (tr ++ finally st) (closed (hard st)).
Proof.
  intros (He & Hh & _). unfold finally, f_easy, f_hard.
  set (q := if engine st then [Quit; Print MsgEngineQuit] else []).
  assert (Hq : ∀ s, Forall (neutral s) q).
  { intros s. subst q. destruct (engine st); by repeat constructor. }
  split.
  - rewrite !app_assoc. apply batch_inv_neutral_list.
    + apply batch_inv_closed. by apply batch_inv_neutral_list.
    + by apply close_final_neutral.
  - rewrite !app_assoc. apply batch_inv_closed.
    apply batch_inv_neutral_list; [|by apply close_final_neutral].
    by apply batch_inv_neutral_list.
Qed.

Lemma summary_prints (eb hb : string) (st : State) :
  Forall (λ e, is_print e = true) (summary eb hb st).
Proof.
  unfold summary. repeat (apply Forall_app; split);
    repeat case_match; by repeat constructor.
Qed.

Lemma prints_neutral (s : Stream) (ev : list Event) :
  Forall (λ e, is_print e = true) ev → Forall (neutral s) ev.
Proof.
  intros H. eapply Forall_impl; [exact H|]. intros e. by destruct e.
Qed.

Lemma prints_quiet (ev : list Event) :
  Forall (λ e, is_print e = true) ev →
  Forall (λ e, is_file_event e = false) ev.
Proof.
  intros H. eapply Forall_impl; [exact H|]. intros e. by destruct e.
Qed.

(** [leave] is some prints, the [finally] block and some prints. *)
Lemma leave_shape (input eb hb : string) (st : State) (raised : option Exn) :
  ∃ before after,
    leave input eb hb st raised = before ++ finally st ++ after
    ∧ Forall (λ e, is_print e = true) before
    ∧ Forall (λ e, is_print e = true) after.
Proof.
  destruct raised as [[m|m|m]|]; simpl.
  - exists [Print (MsgUnexpected m)], (summary eb hb st).
    split; [done|]. split; [by repeat constructor|apply summary_prints].
  - exists [Print (MsgInputNotFound input)], [].
    split; [by rewrite app_nil_r|]. split; by repeat constructor.
  - exists [Print (MsgUnexpected m)], (summary eb hb st).
    split; [done|]. split; [by repeat constructor|apply summary_prints].
  - exists [], (summary eb hb st).
    split; [done|]. split; [by repeat constructor|apply summary_prints].
Qed.

Lemma leave_inv (input eb hb : string) (tr : list Event) (st : State)
    (raised : option Exn) :
  loop_inv eb hb tr st →
  batch_inv Easy eb (tr ++ leave input eb hb st raised) (closed (easy st))
  ∧ batch_inv Hard hb (tr ++ leave input eb hb st raised) (closed (hard st)).
Proof.
  intros Hinv.
  destruct (leave_shape input eb hb st raised) as (p & a & -> & Hp & Ha).
  pose proof (loop_inv_quiet eb hb tr p st Hinv (prints_quiet _ Hp))
    as Hinv'.
  destruct (finally_inv eb hb _ _ Hinv') as [He Hh].
  rewrite !app_assoc.
  split; apply batch_inv_neutral_list; try done; by apply prints_neutral.
Qed.

Lemma init_engine_quiet (env : Env) :
  Forall (λ e, is_file_event e = false) (init_engine env).1.1.
Proof.
  unfold init_engine. repeat case_match; simpl; by repeat constructor.
Qed.

(** At the end of [process_pgn_file] the events and the variables of both
    streams agree, every batch file is closed and the counters add up. *)
Lemma process_pgn_file_inv (env : Env) (input eo ho : string) :
  let r := process_pgn_file env input eo ho in
  batch_inv Easy (rsplit_dot_0 eo) r.2 (closed (easy r.1))
  ∧ batch_inv Hard (rsplit_dot_0 ho) r.2 (closed (hard r.1))
  ∧ counts_partition r.1.
Proof.
  unfold process_pgn_file.
  set (eb := rsplit_dot_0 eo). set (hb := rsplit_dot_0 ho).
  set (ev_start := [Print (MsgStarting input);
                    Print (MsgBatchSize PUZZLES_PER_BATCH);
                    Print (MsgBaseName Easy eb);
                    Print (MsgBaseName Hard hb)]).
  pose proof (init_engine_quiet env) as Hq.
  destruct (init_engine env) as [[ev_init assigned] ok]. simpl in Hq.
  set (st0 := with_engine assigned initial_state).
  assert (H0 : loop_inv eb hb (ev_start ++ ev_init) st0).
  { apply (loop_inv_quiet eb hb [] (ev_start ++ ev_init)).
    - split; [|split]; [apply batch_inv_nil..|done].
    - apply Forall_app. split; [by repeat constructor|done]. }
  destruct ok; simpl negb; cbv iota.
  - assert (H1 : loop_inv eb hb ((ev_start ++ ev_init) ++ [OpenInput input])
                   st0).
    { apply loop_inv_quiet; [done|by repeat constructor]. }
    destruct (open_input env input) as [pgn_file|e].
    + pose proof (read_games_inv env eb hb pgn_file _ _ H1) as H2.
      destruct (read_games env eb hb pgn_file st0) as [[st1 ev_loop] raised].
      simpl in H2.
      assert (H3 : loop_inv eb hb
                     ((((ev_start ++ ev_init) ++ [OpenInput input])
                       ++ ev_loop) ++ [CloseInput]) st1).
      { apply loop_inv_quiet; [done|by repeat constructor]. }
      destruct (leave_inv input eb hb _ _ raised H3) as [He Hh].
      rewrite <- !app_assoc in He, Hh.
      split; [done|]. split; [done|]. by destruct H3 as (_ & _ & ?).
    + destruct (leave_inv input eb hb _ _ (Some e) H1) as [He Hh].
      rewrite <- !app_assoc in He, Hh.
      split; [done|]. split; [done|]. by destruct H1 as (_ & _ & ?).
  - destruct (finally_inv eb hb _ _ H0) as [He Hh].
    rewrite <- !app_assoc in He, Hh.
    split; [done|]. split; [done|]. by destruct H0 as (_ & _ & ?).
Qed.

(** ** The shape of a whole run *)

Lemma finally_shape (st : State) :
  ∃ tail,
    finally st
    = (if engine st then [Quit; Print MsgEngineQuit] else []) ++ tail
    ∧ Forall (λ e, is_print e || is_close e = true) tail.
Proof.
  eexists. split; [done|]. unfold close_final.
  apply Forall_app. split; repeat case_match; by repeat constructor.
Qed.

Lemma prints_or_closes (ev : list Event) :
  Forall (λ e, is_print e = true) ev →
  Forall (λ e, is_print e || is_close e = true) ev.
Proof.
  intros H. eapply Forall_impl; [exact H|]. by intros e ->.
Qed.

Lemma prints_no_edge (ev : list Event) :
  Forall (λ e, is_print e = true) ev →
  Forall (λ e, is_engine_edge e = false) ev.
Proof.
  intros H. eapply Forall_impl; [exact H|]. intros e. by destruct e.
Qed.

(** A run is: some prints, [popen_uci], a body in which the engine is
    neither opened nor quit, then (when [engine] was assigned) [quit], and
    last only closings of batch files and prints. *)
Lemma process_pgn_file_trace (env : Env) (input eo ho : string) :
  let r := process_pgn_file env input eo ho in
  ∃ head body tail,
    r.2 = head ++ PopenUci :: body
          ++ (if engine r.1 then [Quit; Print MsgEngineQuit] else []) ++ tail
    ∧ Forall (λ e, is_print e = true) head
    ∧ Forall (λ e, is_engine_edge e = false) body
    ∧ Forall (λ e, is_print e || is_close e = true) tail
    ∧ engine r.1
      = match popen_uci env with Return _ => true | Raise _ => false end
    ∧ ((init_engine env).2 = false → Forall (λ e, is_input e = false) body).
Proof.
  unfold process_pgn_file.
  set (eb := rsplit_dot_0 eo). set (hb := rsplit_dot_0 ho).
  set (ev_start := [Print (MsgStarting input);
                    Print (MsgBatchSize PUZZLES_PER_BATCH);
                    Print (MsgBaseName Easy eb);
                    Print (MsgBaseName Hard hb)]).
  assert (Hstart : Forall (λ e, is_print e = true) ev_start)
    by by repeat constructor.
  unfold init_engine.
  destruct (popen_uci env) as [[]|e].
  - destruct (engine_configure env) as [[]|e]; simpl negb; cbv iota.
    + destruct (open_input env input) as [pgn_file|e].
      * pose proof (read_games_events env eb hb pgn_file
                      (with_engine true initial_state)) as (He & _ & Hev).
        destruct (read_games env eb hb pgn_file
                    (with_engine true initial_state))
          as [[st1 ev_loop] raised].
        simpl in He, Hev. simpl fst. simpl snd.
        destruct (leave_shape input eb hb st1 raised)
          as (before & after & -> & Hb & Ha).
        destruct (finally_shape st1) as (tail & -> & Ht).
        exists ev_start,
          ([Configure; Print MsgEngineInitialized; OpenInput input]
           ++ ev_loop ++ [CloseInput] ++ before),
          (tail ++ after).
        rewrite He. simpl. split; [subst ev_start; simpl; by rewrite <- ?app_assoc|].
        split; [done|]. split.
        { repeat constructor. apply Forall_app. split.
          - eapply Forall_impl; [exact Hev|]. intros x. by destruct x.
          - constructor; [done|]. by apply prints_no_edge. }
        split; [|done].
        apply Forall_app. split; [done|by apply prints_or_closes].
      * destruct (leave_shape input eb hb (with_engine true initial_state)
                    (Some e)) as (before & after & -> & Hb & Ha).
        destruct (finally_shape (with_engine true initial_state))
          as (tail & -> & Ht).
        simpl fst. simpl snd.
        exists ev_start,
          ([Configure; Print MsgEngineInitialized; OpenInput input]
           ++ before),
          (tail ++ after).
        simpl. split; [subst ev_start; simpl; by rewrite <- ?app_assoc|].
        split; [done|]. split.
        { repeat constructor. by apply prints_no_edge. }
        split; [|done].
        apply Forall_app. split; [done|by apply prints_or_closes].
    + simpl fst. simpl snd.
      exists ev_start,
        (Configure
         :: match e with
            | EngineTerminatedError _ => [Print MsgEngineTerminated]
            | FileNotFoundError _ => [Print MsgEngineNotFound]
            | OtherException m =>
                [Print (MsgEngineInitError m); Print MsgEngineInitHint]
            end),
        [].
      split; [by destruct e|]. split; [done|].
      split; [destruct e; by repeat constructor|].
      split; [done|]. split; [done|].
      intros _. destruct e; by repeat constructor.
  - simpl fst. simpl snd.
    exists ev_start,
      (match e with
       | EngineTerminatedError _ => [Print MsgEngineTerminated]
       | FileNotFoundError _ => [Print MsgEngineNotFound]
       | OtherException m =>
           [Print (MsgEngineInitError m); Print MsgEngineInitHint]
       end),
      [].
    split; [by destruct e|]. split; [done|].
    split; [destruct e; by repeat constructor|].
    split; [done|]. split; [done|].
    intros _. destruct e; by repeat constructor.
Qed.

Lemma not_in_class (p : Event → bool) (b : bool) (l : list Event)
    (x : Event) :
  Forall (λ e, p e = b) l → p x = negb b → x ∉ l.
Proof.
  intros Hl Hx Hin. rewrite Forall_forall in Hl. specialize (Hl x Hin).
  rewrite Hl in Hx. by destruct b.
Qed.

Lemma init_engine_failed (env : Env) :
  (∃ e, popen_uci env = Raise e) ∨ (∃ e, engine_configure env = Raise e) →
  (init_engine env).2 = false.
Proof.
  unfold init_engine. intros [[e ->]|[e ->]]; [done|].
  by destruct (popen_uci env).
Qed.

(** C7: [popen_uci] is called exactly once and no game is read before it;
    when the engine cannot be started or configured no game is read and the
    input file is not opened; whenever the engine was started, on every
    way out of the function [quit] is called once, after everything else
    but the final closings and prints; and at the end no batch file is left
    open. *)
Theorem engine_opened_once_and_quit (env : Env) (input eo ho : string) :
  let tr := (process_pgn_file env input eo ho).2 in
  (∃ pre post,
     tr = pre ++ PopenUci :: post
     ∧ (PopenUci ∉ pre) ∧ (PopenUci ∉ post) ∧ (ReadGame ∉ pre))
  ∧ ((∃ e, popen_uci env = Raise e) ∨ (∃ e, engine_configure env = Raise e) →
     (ReadGame ∉ tr) ∧ ∀ path, OpenInput path ∉ tr)
  ∧ (popen_uci env = Return () →
     ∃ pre post,
       tr = pre ++ Quit :: post
       ∧ (Quit ∉ pre)
       ∧ Forall (λ e, is_print e || is_close e = true) post)
  ∧ ((∃ e, popen_uci env = Raise e) → Quit ∉ tr)
  ∧ open_files Easy tr = []
  ∧ open_files Hard tr = [].
Proof.
  intros tr.
  destruct (process_pgn_file_trace env input eo ho)
    as (head & body & tail & Htr & Hhead & Hbody & Htail & Heng & Hfail).
  destruct (process_pgn_file_inv env input eo ho) as (He & Hh & _).
  fold tr in Htr, He, Hh.
  set (q := if engine (process_pgn_file env input eo ho).1
            then [Quit; Print MsgEngineQuit] else []) in *.
  assert (Hq : (PopenUci ∉ q) ∧ (ReadGame ∉ q)
               ∧ ∀ path, OpenInput path ∉ q).
  { subst q. destruct (engine _); (split; [|split; [|intros path]]);
      rewrite ?not_elem_of_cons; repeat split; try done;
      apply not_elem_of_nil. }
  destruct Hq as (Hq1 & Hq2 & Hq3).
  split; [|split; [|split; [|split; [|split]]]].
  - exists head, (body ++ q ++ tail). split; [done|].
    split; [by apply (not_in_class is_print true)|].
    split; [|by apply (not_in_class is_print true)].
    rewrite !not_elem_of_app. split; [|split; [done|]].
    + by apply (not_in_class is_engine_edge false).
    + by apply (not_in_class (λ e, is_print e || is_close e) true).
  - intros Hinit. apply init_engine_failed in Hinit.
    specialize (Hfail Hinit). rewrite Htr.
    split; [|intros path];
      rewrite not_elem_of_app, not_elem_of_cons, !not_elem_of_app;
      (split; [by apply (not_in_class is_print true)|]);
      (split; [done|]);
      (split; [by apply (not_in_class is_input false)|]);
      (split; [done|]);
      by apply (not_in_class (λ e, is_print e || is_close e) true).
  - intros Hp. rewrite Hp in Heng. subst q. rewrite Heng in Htr.
    exists (head ++ PopenUci :: body), (Print MsgEngineQuit :: tail).
    split; [by rewrite Htr, <- app_assoc|]. split; [|by constructor].
    rewrite not_elem_of_app, not_elem_of_cons.
    split; [by apply (not_in_class is_print true)|]. split; [done|].
    by apply (not_in_class is_engine_edge false).
  - intros [e Hp]. rewrite Hp in Heng. subst q. rewrite Heng in Htr.
    rewrite Htr, not_elem_of_app, not_elem_of_cons, not_elem_of_app.
    split; [by apply (not_in_class is_print true)|]. split; [done|].
    split; [by apply (not_in_class is_engine_edge false)|].
    by apply (not_in_class (λ e, is_print e || is_close e) true).
  - by destruct He.
  - by destruct Hh.
Qed.

Lemma engine_opened_once_and_quit_witness :
  ∃ pre post,
    (process_pgn_file Sample.env "in.pgn" "easy.pgn" "hard.pgn").2
    = pre ++ Quit :: post
    ∧ (Quit ∉ pre)
    ∧ Forall (λ e, is_print e || is_close e = true) post.
Proof.
  apply (engine_opened_once_and_quit Sample.env "in.pgn" "easy.pgn"
           "hard.pgn").
  reflexivity.
Defined.

(** ** Batches *)

Lemma string_length_app (s t : string) :
  String.length (s +:+ t) = String.length s + String.length t.
Proof. induction s as [|c s IH]; simpl; [done|by rewrite IH]. Qed.

Lemma string_app_inj_r (t s1 s2 : string) : s1 +:+ t = s2 +:+ t → s1 = s2.
Proof.
  revert s2. induction s1 as [|c s1 IH]; intros [|c' s2] H; simpl in H.
  - done.
  - apply (f_equal String.length) in H.
    rewrite !string_length_app in H. simpl in H. lia.
  - apply (f_equal String.length) in H.
    rewrite !string_length_app in H. simpl in H. lia.
  - injection H as -> H. f_equal. by apply IH.
Qed.

(** Different batch numbers give different file names. *)
Lemma batch_filename_inj (base : string) (n m : nat) :
  batch_filename base n = batch_filename base m → n = m.
Proof.
  unfold batch_filename. intros H.
  apply (inj (String.app base)) in H.
  apply (inj (String.app "_batch_")) in H.
  apply string_app_inj_r in H. by apply (inj pretty) in H.
Qed.

(** What [write_batch] does to a stream whose open file is full. *)
Lemma write_batch_rotates (env : Env) (k : nat) (s : Stream)
    (base pgn : string) (b : Batch) (name : string) :
  f b = Some name →
  puzzles_in_current_batch b = PUZZLES_PER_BATCH →
  let next := batch_filename base (batch_num b + 1) in
  let r := write_batch env k s base pgn b in
  batch_num r.1 = batch_num b + 1
  ∧ file_events r.2
    = CloseOutput s name
      :: OpenOutput s next (bool_decide (open_output env k next = None))
      :: match open_output env k next with
         | None =>
             [WriteOutput s next (written_data pgn)
                (bool_decide
                   (file_write env k next (written_data pgn) = None))]
         | Some _ => []
         end.
Proof.
  intros Hf Hcnt next r. subst r next.
  unfold write_batch, rotate, write_current, written_data.
  rewrite Hf, Hcnt. simpl.
  destruct (open_output env k _) as [e|]; simpl; [done|].
  by destruct (file_write env k _ _) as [e|].
Qed.

(** C2: no batch file of either stream receives more than
    [PUZZLES_PER_BATCH] = 25 puzzles.  At every event of a run: a puzzle is
    written only to the open file of its stream, which is the newest one
    and holds fewer than 25 puzzles; a file is opened only when no file of
    the stream is open, under the next batch number, and no file name is
    used twice by a stream.  And when the open file holds 25 puzzles, the
    next puzzle of the class closes it, opens the file of the next number
    and is written there. *)
Theorem batches_hold_at_most_25 (env : Env) (input eo ho : string)
    (s : Stream) :
  let tr := (process_pgn_file env input eo ho).2 in
  PUZZLES_PER_BATCH = 25
  ∧ Forall (λ n, n ≤ PUZZLES_PER_BATCH) (batch_sizes s tr)
  ∧ at_every_event (batch_step_ok s (base_of s eo ho)) tr
  ∧ NoDup (opened s tr)
  ∧ ∀ k pgn b name,
      f b = Some name →
      puzzles_in_current_batch b = PUZZLES_PER_BATCH →
      let next := batch_filename (base_of s eo ho) (batch_num b + 1) in
      let r := write_batch env k s (base_of s eo ho) pgn b in
      batch_num r.1 = batch_num b + 1
      ∧ file_events r.2
        = CloseOutput s name
          :: OpenOutput s next (bool_decide (open_output env k next = None))
          :: match open_output env k next with
             | None =>
                 [WriteOutput s next (written_data pgn)
                    (bool_decide
                       (file_write env k next (written_data pgn) = None))]
             | Some _ => []
             end.
Proof.
  intros tr.
  destruct (process_pgn_file_inv env input eo ho) as (He & Hh & _).
  split; [done|].
  split; [by destruct s; [destruct He|destruct Hh]|].
  split; [by destruct s; [destruct He|destruct Hh]|].
  split.
  { assert (Ho : ∃ k, opened s tr
                      = map (batch_filename (base_of s eo ho)) (seq 1 k)).
    { destruct s; eexists; [by destruct He|by destruct Hh]. }
    destruct Ho as [k ->].
    apply (NoDup_fmap_2_strong _); [|apply NoDup_seq].
    intros n m _ _. apply batch_filename_inj. }
  intros k pgn b name Hf Hcnt. by apply write_batch_rotates.
Qed.

Lemma batches_hold_at_most_25_witness :
  batch_num
    (write_batch Sample.env 26 Easy (base_of Easy "easy.pgn" "hard.pgn")
       "Puzzle 26" Sample.full_batch).1
  = 2.
Proof.
  exact (proj1 (proj2 (proj2 (proj2 (proj2
           (batches_hold_at_most_25 Sample.env "in.pgn" "easy.pgn"
              "hard.pgn" Easy))))
           26 "Puzzle 26" Sample.full_batch "easy_batch_1.pgn"
           eq_refl eq_refl)).
Defined.

(** A run over 27 easy puzzles fills the first easy file with 25 of them
    and puts the last two in the second. *)
Example twenty_seven_easy_puzzles :
  let tr := (process_pgn_file (Sample.env_many 27) "in.pgn" "easy.pgn"
               "hard.pgn").2 in
  opened Easy tr = ["easy_batch_1.pgn"; "easy_batch_2.pgn"]
  ∧ batch_sizes Easy tr = [2; 25]
  ∧ opened Hard tr = [].
Proof. vm_compute. done. Qed.

(** When opening [_batch_1] fails the next easy puzzle opens [_batch_2]:
    the number advances with every attempt. *)
Example failed_open_advances_number :
  let tr := (process_pgn_file Sample.env_open_fails_once "in.pgn" "easy.pgn"
               "hard.pgn").2 in
  file_events tr
  = [OpenOutput Easy "easy_batch_1.pgn" false;
     OpenOutput Hard "hard_batch_1.pgn" true;
     WriteOutput Hard "hard_batch_1.pgn"
       (written_data "Puzzle 2 (Hard Example)") true;
     OpenOutput Easy "easy_batch_2.pgn" true;
     WriteOutput Easy "easy_batch_2.pgn"
       (written_data "Puzzle 3 (Same as 1, Easy)") true;
     CloseOutput Easy "easy_batch_2.pgn";
     CloseOutput Hard "hard_batch_1.pgn"].
Proof. vm_compute. done. Qed.

(** ** Counters *)

Lemma loop_body_counts (env : Env) (eb hb : string) (st : State)
    (game : Game) :
  counts_partition st → counts_partition (loop_body env eb hb st game).1.
Proof.
  intros Hc.
  destruct (passes env (processed_puzzles_count st + 1) game) eqn:Hp.
  - destruct (passes_inv _ _ _ Hp) as (sol & rest & top & Hfen & Hm & Ht & Hb).
    rewrite (loop_body_classified env eb hb st game sol rest top) by done.
    unfold counts_partition in *.
    case_bool_decide; simpl; rewrite length_app; simpl; lia.
  - destruct (loop_body_skipped env eb hb st game Hp) as (ev & -> & _).
    unfold counts_partition in *. simpl. lia.
Qed.

Lemma process_pgn_file_processed (env : Env) (input eo ho : string)
    (pgn_file : list (Result Game)) :
  popen_uci env = Return () →
  engine_configure env = Return () →
  open_input env input = Return pgn_file →
  processed_puzzles_count (process_pgn_file env input eo ho).1
  = games_read pgn_file.
Proof.
  intros Hp Hc Ho. unfold process_pgn_file, init_engine.
  rewrite Hp, Hc, Ho. simpl negb. cbv iota.
  pose proof (read_games_events env (rsplit_dot_0 eo) (rsplit_dot_0 ho)
                pgn_file (with_engine true initial_state)) as (_ & Hn & _).
  by destruct (read_games _ _ _ _ _) as [[st1 ev_loop] raised].
Qed.

(** C8: [processed_puzzles_count] is the sum of the lengths of the two
    lists and of [error_puzzles_count]: at the start, after every record,
    and so at the end, where the summary prints these numbers; and when
    the loop is reached [processed_puzzles_count] is the number of games
    read from the input. *)
Theorem counters_partition_the_input (env : Env) (input eo ho : string) :
  counts_partition initial_state
  ∧ (∀ eb hb st game,
       counts_partition st →
       counts_partition (loop_body env eb hb st game).1)
  ∧ counts_partition (process_pgn_file env input eo ho).1
  ∧ (∀ pgn_file,
       popen_uci env = Return () →
       engine_configure env = Return () →
       open_input env input = Return pgn_file →
       processed_puzzles_count (process_pgn_file env input eo ho).1
       = games_read pgn_file)
  ∧ ∀ eb hb st,
      Print (MsgSummaryProcessed (processed_puzzles_count st))
        ∈ summary eb hb st
      ∧ Print (MsgSummaryTotal Easy (length (easy_puzzles_pgn_strings st)))
          ∈ summary eb hb st
      ∧ Print (MsgSummaryTotal Hard (length (hard_puzzles_pgn_strings st)))
          ∈ summary eb hb st
      ∧ (0 < error_puzzles_count st →
         Print (MsgSummarySkipped (error_puzzles_count st))
           ∈ summary eb hb st).
Proof.
  split; [done|]. split; [intros; by apply loop_body_counts|].
  split; [by destruct (process_pgn_file_inv env input eo ho) as (_ & _ & ?)|].
  split; [intros; by apply process_pgn_file_processed|].
  intros eb hb st. unfold summary.
  rewrite !elem_of_app, !elem_of_cons.
  split; [auto|]. split; [auto|]. split; [auto 10|].
  intros Hpos. apply Nat.ltb_lt in Hpos. rewrite Hpos.
  rewrite list_elem_of_singleton. auto 10.
Qed.

Lemma counters_partition_the_input_witness :
  processed_puzzles_count
    (process_pgn_file Sample.env "in.pgn" "easy.pgn" "hard.pgn").1
  = 3.
Proof.
  exact (proj1 (proj2 (proj2 (proj2
           (counters_partition_the_input Sample.env "in.pgn" "easy.pgn"
              "hard.pgn"))))
           _ eq_refl eq_refl eq_refl).
Defined.

(** ** File names *)

Lemma rsplit_last_none (sep : Ascii.ascii) (s : string) :
  contains_char sep s = false → rsplit_last sep s = None.
Proof.
  induction s as [|c s IH]; [done|]. simpl. intros H.
  apply orb_false_iff in H as [Hc Hs]. by rewrite IH, Hc.
Qed.

Lemma rsplit_last_ext (sep : Ascii.ascii) (base ext : string) :
  contains_char sep ext = false →
  rsplit_last sep (base +:+ String sep ext) = Some base.
Proof.
  intros Hext. induction base as [|c base IH]; simpl.
  - by rewrite rsplit_last_none, Ascii.eqb_refl.
  - by rewrite IH.
Qed.

Lemma nth_batch_filename (base : string) (k n : nat) (name : string) :
  map (batch_filename base) (seq 1 k) !! n = Some name →
  name = base +:+ "_batch_" +:+ pretty (n + 1) +:+ ".pgn".
Proof.
  rewrite list_lookup_fmap. intros H.
  apply fmap_Some in H as (i & Hi & ->).
  apply lookup_seq in Hi as [-> _].
  unfold batch_filename. by rewrite (Nat.add_comm 1 n).
Qed.

(** C9: the files opened for a stream during a run are, in order, the
    base name followed by [_batch_1.pgn], [_batch_2.pgn], ... up to the
    final batch number, which counts the openings, so that the n-th file
    carries the number n; the base name is the output path without its
    last ['.'] and what follows it (the whole path when it has no ['.']). *)
Theorem batch_files_are_numbered (env : Env) (input eo ho : string)
    (s : Stream) :
  let r := process_pgn_file env input eo ho in
  opened s r.2
    = map (batch_filename (base_of s eo ho))
        (seq 1 (batch_num (batch_of s r.1)))
  ∧ length (opened s r.2) = batch_num (batch_of s r.1)
  ∧ (∀ n name,
       opened s r.2 !! n = Some name →
       name = base_of s eo ho +:+ "_batch_" +:+ pretty (n + 1) +:+ ".pgn")
  ∧ (∀ base ext,
       contains_char "." ext = false →
       rsplit_dot_0 (base +:+ "." +:+ ext) = base)
  ∧ (∀ path, contains_char "." path = false → rsplit_dot_0 path = path).
Proof.
  intros r.
  destruct (process_pgn_file_inv env input eo ho) as (He & Hh & _).
  fold r in He, Hh.
  assert (Ho : opened s r.2
               = map (batch_filename (base_of s eo ho))
                   (seq 1 (batch_num (batch_of s r.1)))).
  { destruct s; [by destruct He|by destruct Hh]. }
  split; [done|]. split; [|split; [|split]].
  - by rewrite Ho, length_map, length_seq.
  - intros n name. rewrite Ho. apply nth_batch_filename.
  - intros base ext Hext. unfold rsplit_dot_0.
    change (base +:+ "." +:+ ext) with (base +:+ String "." ext).
    by rewrite rsplit_last_ext.
  - intros path Hp. unfold rsplit_dot_0. by rewrite rsplit_last_none.
Qed.

Lemma batch_files_are_numbered_witness :
  rsplit_dot_0 ("easy_puzzles_output" +:+ "." +:+ "pgn")
  = "easy_puzzles_output".
Proof.
  exact (proj1 (proj2 (proj2 (proj2
           (batch_files_are_numbered Sample.env "in.pgn" "easy.pgn"
              "hard.pgn" Easy))))
           "easy_puzzles_output" "pgn" eq_refl).
Defined.

(** * Further properties *)

(** ** get_maia_top_move, read backwards *)

(** X1: a move comes out of [get_maia_top_move] only as the first move of
    the principal variation of an analysis that returned, on the board of
    the FEN string, and then nothing was printed; and whatever happens,
    a message is printed exactly when the result is [None]. *)
Theorem get_maia_top_move_result (env : Env) (k : nat) (fen_str : string) :
  let r := get_maia_top_move env k fen_str in
  (∀ top,
     r.1 = Some top →
     ∃ board info rest,
       chess_Board env fen_str = Return board
       ∧ engine_analyse env k board = Return info
       ∧ pv info = Some (top :: rest)
       ∧ r.2 = [NewBoard fen_str; Analyse board 1])
  ∧ (r.1 = None ↔ ∃ m, last r.2 = Some (Print m))
  ∧ length (analyses r.2) ≤ 1.
Proof.
  intros r. subst r. split; [|split].
  - intros top. apply get_maia_top_move_Some.
  - unfold get_maia_top_move.
    destruct (chess_Board env fen_str) as [board|e]; simpl.
    + destruct (engine_analyse env k board) as [info|e]; simpl.
      * destruct (InfoDict_bool info), (pv info) as [[|m l]|]; simpl;
          split; try done; try (intros [? [=]]); by eexists.
      * split; [by eexists|done].
    + split; [by eexists|done].
  - unfold get_maia_top_move.
    destruct (chess_Board env fen_str) as [board|e]; simpl; [|lia].
    destruct (engine_analyse env k board) as [info|e]; simpl; [|lia].
    destruct (InfoDict_bool info), (pv info) as [[|m l]|]; simpl; lia.
Qed.

Lemma get_maia_top_move_result_witness :
  ∃ board info rest,
    chess_Board Sample.env Sample.fen1 = Return board
    ∧ engine_analyse Sample.env 1 board = Return info
    ∧ pv info = Some (Sample.Qd6 :: rest)
    ∧ (get_maia_top_move Sample.env 1 Sample.fen1).2
      = [NewBoard Sample.fen1; Analyse board 1].
Proof.
  exact (proj1 (get_maia_top_move_result Sample.env 1 Sample.fen1)
           Sample.Qd6 eq_refl).
Defined.

(** ** What a whole run computes *)

Lemma verdict_passes (env : Env) (n : nat) (game : Game) (sol top : Move)
    (rest : list Move) :
  passes env n game = true →
  mainline_moves game = sol :: rest →
  top_move env n game = Some top →
  verdict env n game = Some (compare_moves sol top).
Proof. intros Hp Hm Ht. unfold verdict. by rewrite Hp, Hm, Ht. Qed.

(** The effect of one record on the two lists and on the error counter. *)
Lemma loop_body_lists (env : Env) (eb hb : string) (st : State)
    (game : Game) :
  let n := processed_puzzles_count st + 1 in
  let r := loop_body env eb hb st game in
  easy_puzzles_pgn_strings r.1
  = easy_puzzles_pgn_strings st ++ export_if env Easy n game
  ∧ hard_puzzles_pgn_strings r.1
    = hard_puzzles_pgn_strings st ++ export_if env Hard n game
  ∧ error_puzzles_count r.1
    = error_puzzles_count st + length (skipped_if env n game).
Proof.
  intros n r. subst r. unfold export_if, skipped_if.
  destruct (passes env n game) eqn:Hp.
  - destruct (passes_inv _ _ _ Hp) as (sol & rest & top & Hfen & Hm & Ht & Hb).
    rewrite (verdict_passes env n game sol top rest) by done.
    rewrite (loop_body_classified env eb hb st game sol rest top) by done.
    unfold compare_moves. case_bool_decide; simpl;
      rewrite ?app_nil_r; repeat split; try done; lia.
  - destruct (loop_body_skipped env eb hb st game Hp) as (ev & -> & _).
    unfold verdict. rewrite Hp. simpl. rewrite !app_nil_r.
    repeat split; lia.
Qed.

Lemma read_games_lists (env : Env) (eb hb : string)
    (pgn_file : list (Result Game)) (st : State) :
  let r := read_games env eb hb pgn_file st in
  let n := processed_puzzles_count st in
  easy_puzzles_pgn_strings r.1.1
  = easy_puzzles_pgn_strings st
    ++ per_record (export_if env Easy) n (games_of pgn_file)
  ∧ hard_puzzles_pgn_strings r.1.1
    = hard_puzzles_pgn_strings st
      ++ per_record (export_if env Hard) n (games_of pgn_file)
  ∧ error_puzzles_count r.1.1
    = error_puzzles_count st
      + length (per_record (skipped_if env) n (games_of pgn_file))
  ∧ r.2 = first_raise pgn_file.
Proof.
  revert st. induction pgn_file as [|[game|e] rest IH]; intros st; simpl.
  - rewrite !app_nil_r. repeat split; lia.
  - pose proof (loop_body_lists env eb hb st game) as (He & Hh & Hc).
    pose proof (loop_body_engine env eb hb st game) as [_ Hn].
    destruct (loop_body env eb hb st game) as [st1 ev1]. simpl in *.
    specialize (IH st1).
    destruct (read_games env eb hb rest st1) as [[st2 ev2] r]. simpl in *.
    destruct IH as (H1 & H2 & H3 & H4). rewrite Hn in H1, H2, H3.
    rewrite H1, H2, H3, He, Hh, Hc, <- !app_assoc, length_app.
    repeat split; try done. lia.
  - rewrite !app_nil_r. repeat split; lia.
Qed.

Lemma process_pgn_file_lists (env : Env) (input eo ho : string) :
  let st := (process_pgn_file env input eo ho).1 in
  let games := games_handled env input in
  easy_puzzles_pgn_strings st = per_record (export_if env Easy) 0 games
  ∧ hard_puzzles_pgn_strings st = per_record (export_if env Hard) 0 games
  ∧ error_puzzles_count st = length (per_record (skipped_if env) 0 games)
  ∧ processed_puzzles_count st = length games.
Proof.
  unfold process_pgn_file, games_handled.
  destruct (init_engine env) as [[ev_init assigned] ok]. simpl snd.
  destruct ok; simpl negb; cbv iota; [|done].
  destruct (open_input env input) as [pgn_file|e]; [|done].
  pose proof (read_games_lists env (rsplit_dot_0 eo) (rsplit_dot_0 ho)
                pgn_file (with_engine assigned initial_state))
    as (He & Hh & Hc & _).
  pose proof (read_games_events env (rsplit_dot_0 eo) (rsplit_dot_0 ho)
                pgn_file (with_engine assigned initial_state))
    as (_ & Hn & _).
  destruct (read_games _ _ _ _ _) as [[st1 ev_loop] raised]. simpl in *.
  repeat split; try done.
  rewrite Hn. clear. induction pgn_file as [|[g|e] rest IH]; simpl; lia.
Qed.

(** X3: the two lists at the end of a run are the exported texts of the
    games handled whose solution equals, respectively differs from, the
    engine's usable top move, in input order, and [error_puzzles_count]
    counts the other games handled.  The outcome of opening and writing
    the batch files has no part in it. *)
Theorem lists_are_the_classified_games (env : Env) (input eo ho : string) :
  let st := (process_pgn_file env input eo ho).1 in
  let games := games_handled env input in
  easy_puzzles_pgn_strings st = per_record (export_if env Easy) 0 games
  ∧ hard_puzzles_pgn_strings st = per_record (export_if env Hard) 0 games
  ∧ error_puzzles_count st = length (per_record (skipped_if env) 0 games)
  ∧ processed_puzzles_count st = length games.
Proof. apply process_pgn_file_lists. Qed.

(** ** Reading a trace record by record *)

Lemma omap_outside {A} (obs : Event → option A) (l : list Event) :
  (∀ e, outside_records e = true → obs e = None) →
  Forall (λ e, outside_records e = true) l →
  omap obs l = [].
Proof.
  intros Hobs. induction 1 as [|e l He _ IH]; [done|].
  simpl. by rewrite (Hobs e He).
Qed.

Lemma init_engine_outside (env : Env) :
  Forall (λ e, outside_records e = true) (init_engine env).1.1.
Proof.
  unfold init_engine. repeat case_match; simpl; by repeat constructor.
Qed.

Lemma leave_outside (input eb hb : string) (st : State)
    (raised : option Exn) :
  Forall (λ e, outside_records e = true) (leave input eb hb st raised).
Proof.
  unfold leave, finally, summary, close_final.
  repeat case_match; repeat (apply Forall_app; split);
    repeat case_match; by repeat constructor.
Qed.

Lemma finally_outside (st : State) :
  Forall (λ e, outside_records e = true) (finally st).
Proof.
  unfold finally, close_final.
  repeat (apply Forall_app; split); repeat case_match;
    by repeat constructor.
Qed.

Lemma init_engine_assigned (env : Env) :
  (init_engine env).2 = true → (init_engine env).1.2 = true.
Proof. unfold init_engine. by repeat case_match. Qed.

(** A run is the events of the loop between events that belong to no
    record. *)
Lemma process_pgn_file_split (env : Env) (input eo ho : string) :
  ∃ pre post,
    (process_pgn_file env input eo ho).2
    = pre ++ loop_events env input eo ho ++ post
    ∧ Forall (λ e, outside_records e = true) pre
    ∧ Forall (λ e, outside_records e = true) post.
Proof.
  unfold process_pgn_file, loop_events.
  pose proof (init_engine_outside env) as Hinit.
  pose proof (init_engine_assigned env) as Hassigned.
  destruct (init_engine env) as [[ev_init assigned] ok]. simpl in *.
  set (ev_start := [Print (MsgStarting input);
                    Print (MsgBatchSize PUZZLES_PER_BATCH);
                    Print (MsgBaseName Easy (rsplit_dot_0 eo));
                    Print (MsgBaseName Hard (rsplit_dot_0 ho))]).
  assert (Hstart : Forall (λ e, outside_records e = true) ev_start)
    by by repeat constructor.
  destruct ok; simpl negb; cbv iota.
  - rewrite Hassigned by done.
    destruct (open_input env input) as [pgn_file|e].
    + destruct (read_games _ _ _ _ _) as [[st1 ev_loop] raised]. simpl.
      exists (ev_start ++ ev_init ++ [OpenInput input]),
        ([CloseInput] ++ leave input (rsplit_dot_0 eo) (rsplit_dot_0 ho)
                           st1 raised).
      split; [by rewrite <- !app_assoc|]. split.
      * repeat (apply Forall_app; split); try done. by repeat constructor.
      * apply Forall_app. split; [by repeat constructor|].
        apply leave_outside.
    + simpl.
      exists (ev_start ++ ev_init ++ [OpenInput input]),
        (leave input (rsplit_dot_0 eo) (rsplit_dot_0 ho)
           (with_engine true initial_state) (Some e)).
      split; [by rewrite <- !app_assoc|]. split.
      * repeat (apply Forall_app; split); try done. by repeat constructor.
      * apply leave_outside.
  - simpl.
    exists (ev_start ++ ev_init),
      (finally (with_engine assigned initial_state)).
    split; [by rewrite <- !app_assoc|]. split.
    + by apply Forall_app.
    + apply finally_outside.
Qed.

(** An observation that ignores the events outside the records and is
    fixed by the number of the record sees a run record by record. *)
Lemma read_games_omap {A} (obs : Event → option A) (F : nat → Game → list A)
    (env : Env) (eb hb : string) :
  obs ReadGame = None →
  (∀ st game,
     omap obs (loop_body env eb hb st game).2
     = F (processed_puzzles_count st + 1) game) →
  ∀ pgn_file st,
    omap obs (read_games env eb hb pgn_file st).1.2
    = per_record F (processed_puzzles_count st) (games_of pgn_file).
Proof.
  intros Hread Hbody pgn_file.
  induction pgn_file as [|[game|e] rest IH]; intros st; simpl.
  - by rewrite Hread.
  - specialize (Hbody st game).
    pose proof (loop_body_engine env eb hb st game) as [_ Hn].
    destruct (loop_body env eb hb st game) as [st1 ev1]. simpl in *.
    specialize (IH st1).
    destruct (read_games env eb hb rest st1) as [[st2 ev2] r]. simpl in *.
    by rewrite Hread, omap_app, Hbody, IH, Hn.
  - by rewrite Hread.
Qed.

Lemma process_pgn_file_omap {A} (obs : Event → option A)
    (F : nat → Game → list A) (env : Env) (input eo ho : string) :
  (∀ e, outside_records e = true → obs e = None) →
  (∀ st game,
     omap obs (loop_body env (rsplit_dot_0 eo) (rsplit_dot_0 ho) st game).2
     = F (processed_puzzles_count st + 1) game) →
  omap obs (process_pgn_file env input eo ho).2
  = per_record F 0 (games_handled env input).
Proof.
  intros Hobs Hbody.
  destruct (process_pgn_file_split env input eo ho)
    as (pre & post & -> & Hpre & Hpost).
  rewrite !omap_app, (omap_outside obs pre), (omap_outside obs post) by done.
  rewrite app_nil_r. simpl. unfold loop_events, games_handled.
  destruct (init_engine env).2; [|done].
  destruct (open_input env input) as [pgn_file|e]; [|done].
  by rewrite (read_games_omap obs F) by auto.
Qed.

(** ** What the engine is asked *)

Lemma get_maia_top_move_analyses (env : Env) (k : nat) (fen_str : string) :
  analyses (get_maia_top_move env k fen_str).2
  = match chess_Board env fen_str with
    | Return board => [(board, 1)]
    | Raise _ => []
    end.
Proof.
  unfold get_maia_top_move.
  destruct (chess_Board env fen_str) as [board|e]; [|done].
  destruct (engine_analyse env k board) as [info|e]; [|done].
  by destruct (InfoDict_bool info), (pv info) as [[|m l]|].
Qed.

Lemma analyses_cons_other (e : Event) (l : list Event) :
  is_analyse e = false → analyses (e :: l) = analyses l.
Proof. by destruct e. Qed.

Lemma loop_body_analyses (env : Env) (eb hb : string) (st : State)
    (game : Game) :
  analyses (loop_body env eb hb st game).2
  = analysis_of env (processed_puzzles_count st + 1) game.
Proof.
  unfold loop_body, analysis_of, fen_of.
  destruct (opt_str_bool (headers game !! "FEN")) eqn:Hfen; simpl.
  - rewrite andb_false_r.
    destruct (mainline_moves game) as [|sol rest] eqn:Hm.
    + by destruct (errors game).
    + pose proof (get_maia_top_move_analyses env
                    (processed_puzzles_count st + 1)
                    (default "" (headers game !! "FEN"))) as Hmaia.
      destruct (get_maia_top_move _ _ _) as [o evm]. simpl in Hmaia.
      assert (Hskip : analyses
                (Print (MsgProcessing
                          (puzzle_id (processed_puzzles_count st + 1) game))
                 :: evm
                 ++ [Print (MsgNoTopMove
                              (puzzle_id (processed_puzzles_count st + 1)
                                 game))])
              = analyses evm).
      { rewrite analyses_cons_other, analyses_app by done.
        simpl. by rewrite app_nil_r. }
      destruct o as [top|]; [|by rewrite <- Hmaia].
      destruct (Move_bool top); simpl; [|by rewrite <- Hmaia].
      case_bool_decide.
      * destruct (write_batch_events env (processed_puzzles_count st + 1)
                    Easy eb (string_exporter env game) (easy st))
          as (_ & Ha & _).
        destruct (write_batch _ _ Easy _ _ _) as [b ev_w].
        unfold snd in *.
        repeat (rewrite analyses_app || rewrite analyses_cons_other by done).
        by rewrite Ha, Hmaia, app_nil_r.
      * destruct (write_batch_events env (processed_puzzles_count st + 1)
                    Hard hb (string_exporter env game) (hard st))
          as (_ & Ha & _).
        destruct (write_batch _ _ Hard _ _ _) as [b ev_w].
        unfold snd in *.
        repeat (rewrite analyses_app || rewrite analyses_cons_other by done).
        by rewrite Ha, Hmaia, app_nil_r.
  - by case_bool_decide.
Qed.

Lemma per_record_analysis_of (env : Env) (n : nat) (games : list Game) :
  Forall (λ a, a.2 = 1) (per_record (analysis_of env) n games)
  ∧ length (per_record (analysis_of env) n games) ≤ length games.
Proof.
  revert n. induction games as [|g l IH]; intros n; simpl.
  - split; [constructor|lia].
  - destruct (IH (n + 1)) as [H1 H2]. split.
    + apply Forall_app. split; [|done]. unfold analysis_of.
      repeat case_match; by repeat constructor.
    + assert (length (analysis_of env (n + 1) g) ≤ 1)
        by (unfold analysis_of; repeat case_match; simpl; lia).
      rewrite length_app. lia.
Qed.

(** X2: in a run the engine is asked once for every game handled that has
    a non-empty FEN header, a mainline move and a FEN from which a board
    can be built, on that board, with a node limit of 1 and in input
    order; it is asked for no other game and never twice. *)
Theorem engine_asked_once_per_valid_record (env : Env)
    (input eo ho : string) :
  let tr := (process_pgn_file env input eo ho).2 in
  analyses tr = per_record (analysis_of env) 0 (games_handled env input)
  ∧ Forall (λ a, a.2 = 1) (analyses tr)
  ∧ length (analyses tr) ≤ length (games_handled env input).
Proof.
  intros tr.
  assert (Htr : analyses tr
                = per_record (analysis_of env) 0 (games_handled env input)).
  { apply process_pgn_file_omap.
    - intros e. by destruct e.
    - intros st game. apply loop_body_analyses. }
  rewrite Htr. split; [done|]. apply per_record_analysis_of.
Qed.

(** ** The numbering of the records *)

Lemma loop_body_processing_ids (env : Env) (eb hb : string) (st : State)
    (game : Game) :
  processing_ids (loop_body env eb hb st game).2
  = [puzzle_id (processed_puzzles_count st + 1) game].
Proof.
  unfold loop_body, get_maia_top_move, write_batch, rotate, write_current.
  repeat case_match; simplify_eq; done.
Qed.

Lemma per_record_ids (n : nat) (games : list Game) :
  per_record (λ k game, [puzzle_id k game]) n games
  = imap (λ i game, puzzle_id (n + i + 1) game) games.
Proof.
  revert n. induction games as [|g l IH]; intros n; [done|].
  simpl. rewrite IH. f_equal; [by rewrite Nat.add_0_r|].
  apply imap_ext. intros i x _. simpl. f_equal. lia.
Qed.

(** X4: the "Processing ..." lines of a run name the games handled in
    input order, numbered from 1 without a gap, the skipped ones
    included. *)
Theorem records_are_numbered_from_one (env : Env) (input eo ho : string) :
  processing_ids (process_pgn_file env input eo ho).2
  = imap (λ i game, puzzle_id (i + 1) game) (games_handled env input).
Proof.
  unfold processing_ids.
  rewrite (process_pgn_file_omap _ (λ n game, [puzzle_id n game])).
  - rewrite per_record_ids. apply imap_ext. intros i x _. f_equal.
  - intros e. destruct e as [[]| | | | | | | | | | |]; done.
  - intros st game. apply loop_body_processing_ids.
Qed.

(** ** What reaches the batch files *)

Lemma written_app (s : Stream) (l1 l2 : list Event) :
  written s (l1 ++ l2) = written s l1 ++ written s l2.
Proof. apply omap_app. Qed.

Lemma written_quiet (s : Stream) (ev : list Event) :
  Forall (λ e, is_file_event e = false) ev → written s ev = [].
Proof.
  induction 1 as [|e ev He _ IH]; [done|].
  destruct e; first [done | exact IH].
Qed.

Lemma written_cons_quiet (s : Stream) (e : Event) (l : list Event) :
  is_file_event e = false → written s (e :: l) = written s l.
Proof. by destruct e. Qed.

(** The successful writes of a trace, read off its list of writes. *)
Lemma written_of_writes (s : Stream) (ev : list Event) :
  written s ev
  = omap (λ w : Stream * string * string * bool,
            if w.2 then
              if decide (w.1.1.1 = s) then Some w.1.2 else None
            else None)
      (writes ev).
Proof.
  induction ev as [|e ev IH]; [done|].
  destruct e as [| | | | | | | | | |s' name data [|]|]; try exact IH.
  unfold written, writes in *. simpl.
    case_decide; [f_equal|]; exact IH.
Qed.

Lemma write_batch_written (env : Env) (k : nat) (s s' : Stream)
    (base pgn : string) (b : Batch) :
  let ev := (write_batch env k s base pgn b).2 in
  written s' ev `sublist_of` (if decide (s = s') then [written_data pgn] else [])
  ∧ (no_io_failure env →
     written s' ev = if decide (s = s') then [written_data pgn] else []).
Proof.
  intros ev. subst ev. rewrite written_of_writes. split.
  - destruct (write_batch_events env k s base pgn b)
      as (_ & _ & [[name ->]|[[name ->]|[-> _]]]); simpl;
      repeat case_decide; try done; apply sublist_nil_l.
  - intros [Hopen Hwrite].
    unfold write_batch, rotate, write_current, written_data.
    rewrite Hopen.
    destruct (bool_decide (f b = None)
              || (PUZZLES_PER_BATCH <=? puzzles_in_current_batch b)) eqn:Hrot.
    + simpl. rewrite Hwrite. simpl.
      unfold writes. rewrite omap_app. simpl.
      destruct (f b); simpl; by repeat case_decide.
    + apply orb_false_iff in Hrot as [Hf _].
      apply bool_decide_eq_false in Hf.
      destruct (f b) as [name|]; [|done]. simpl. rewrite Hwrite. simpl.
      by repeat case_decide.
Qed.

Lemma loop_body_written (env : Env) (eb hb : string) (st : State)
    (game : Game) (s : Stream) :
  let n := processed_puzzles_count st + 1 in
  let ev := (loop_body env eb hb st game).2 in
  written s ev `sublist_of` map written_data (export_if env s n game)
  ∧ (no_io_failure env →
     written s ev = map written_data (export_if env s n game)).
Proof.
  intros n ev. subst ev. unfold export_if.
  destruct (passes env n game) eqn:Hp.
  - destruct (passes_inv _ _ _ Hp) as (sol & rest & top & Hfen & Hm & Ht & Hb).
    rewrite (verdict_passes env n game sol top rest) by done.
    rewrite (loop_body_classified env eb hb st game sol rest top) by done.
    pose proof (get_maia_top_move_events env n (fen_of game)) as Hmaia.
    apply written_quiet with (s := s) in Hmaia.
    fold n. unfold compare_moves.
    case_bool_decide as Heq; cbv zeta.
    + pose proof (write_batch_written env n Easy s eb
                    (string_exporter env game) (easy st)) as [Hsub Heq'].
      destruct (write_batch env n Easy eb _ (easy st)) as [b ev_w].
      simpl snd in *.
      repeat (rewrite written_app || rewrite written_cons_quiet by done).
      rewrite Hmaia, !app_nil_l. destruct s; by split.
    + pose proof (write_batch_written env n Hard s hb
                    (string_exporter env game) (hard st)) as [Hsub Heq'].
      destruct (write_batch env n Hard hb _ (hard st)) as [b ev_w].
      simpl snd in *.
      repeat (rewrite written_app || rewrite written_cons_quiet by done).
      rewrite Hmaia, !app_nil_l. destruct s; by split.
  - destruct (loop_body_skipped env eb hb st game Hp) as (ev & -> & Hev & _).
    unfold verdict. rewrite Hp. simpl.
    rewrite (written_quiet s ev Hev). split; [done|by intros _].
Qed.

Lemma per_record_map {A B} (g : A → B) (F : nat → Game → list A) (n : nat)
    (games : list Game) :
  map g (per_record F n games) = per_record (λ k game, map g (F k game)) n games.
Proof.
  revert n. induction games as [|x l IH]; intros n; [done|].
  simpl. by rewrite map_app, IH.
Qed.

Lemma read_games_written (env : Env) (eb hb : string) (s : Stream)
    (pgn_file : list (Result Game)) (st : State) :
  written s (read_games env eb hb pgn_file st).1.2
  `sublist_of` per_record (λ k game, map written_data (export_if env s k game))
                 (processed_puzzles_count st) (games_of pgn_file).
Proof.
  revert st. induction pgn_file as [|[game|e] rest IH]; intros st; simpl.
  - done.
  - pose proof (loop_body_written env eb hb st game s) as [Hsub _].
    pose proof (loop_body_engine env eb hb st game) as [_ Hn].
    destruct (loop_body env eb hb st game) as [st1 ev1]. simpl in *.
    specialize (IH st1).
    destruct (read_games env eb hb rest st1) as [[st2 ev2] r]. simpl in *.
    rewrite Hn in IH.
    change (ReadGame :: ev1 ++ ev2) with ([ReadGame] ++ ev1 ++ ev2).
    rewrite !written_app. simpl. by apply sublist_app.
  - done.
Qed.

Lemma written_outside (s : Stream) (ev : list Event) :
  Forall (λ e, outside_records e = true) ev → written s ev = [].
Proof. apply omap_outside. intros e. by destruct e. Qed.

Lemma list_of_per_record (env : Env) (input eo ho : string) (s : Stream) :
  list_of s (process_pgn_file env input eo ho).1
  = per_record (export_if env s) 0 (games_handled env input).
Proof.
  destruct (process_pgn_file_lists env input eo ho) as (He & Hh & _).
  by destruct s.
Qed.

(** X5: the texts a stream writes to its batch files are, in order, texts
    of its list followed by two newlines, each written at most once and
    none from elsewhere; and when no batch file fails to open and no write
    fails, they are all of them: nothing classified is lost. *)
Theorem written_puzzles_are_the_classified (env : Env)
    (input eo ho : string) (s : Stream) :
  let r := process_pgn_file env input eo ho in
  written s r.2 `sublist_of` map written_data (list_of s r.1)
  ∧ (no_io_failure env →
     written s r.2 = map written_data (list_of s r.1)).
Proof.
  intros r. subst r. rewrite list_of_per_record, per_record_map. split.
  - destruct (process_pgn_file_split env input eo ho)
      as (pre & post & -> & Hpre & Hpost).
    rewrite !written_app, (written_outside s pre), (written_outside s post)
      by done.
    rewrite app_nil_r. simpl. unfold loop_events, games_handled.
    destruct (init_engine env).2; [|done].
    destruct (open_input env input) as [pgn_file|e]; [|done].
    apply (read_games_written env _ _ s pgn_file
             (with_engine true initial_state)).
  - intros Hno. apply process_pgn_file_omap.
    + intros e. by destruct e.
    + intros st game. by apply loop_body_written.
Qed.

Lemma written_puzzles_are_the_classified_witness :
  written Easy
    (process_pgn_file Sample.env "in.pgn" "easy.pgn" "hard.pgn").2
  = map written_data
      (list_of Easy
         (process_pgn_file Sample.env "in.pgn" "easy.pgn" "hard.pgn").1).
Proof.
  apply (written_puzzles_are_the_classified Sample.env "in.pgn" "easy.pgn"
           "hard.pgn" Easy).
  by split.
Defined.

(** ** Invariants of a run, in general *)

(** A property of the events so far and of the variables that survives
    the events outside the records and the handling of a record holds at
    the end of every run. *)
Lemma read_games_invariant (I : list Event → State → Prop) (env : Env)
    (eb hb : string) :
  (∀ tr st e, I tr st → outside_records e = true → I (tr ++ [e]) st) →
  (∀ tr st game,
     I tr st →
     I (tr ++ (loop_body env eb hb st game).2)
       (loop_body env eb hb st game).1) →
  ∀ pgn_file tr st,
    I tr st →
    I (tr ++ (read_games env eb hb pgn_file st).1.2)
      (read_games env eb hb pgn_file st).1.1.
Proof.
  intros Hout Hbody pgn_file.
  induction pgn_file as [|[game|e] rest IH]; intros tr st HI; simpl.
  - by apply Hout.
  - specialize (Hbody (tr ++ [ReadGame]) st game
                  (Hout tr st ReadGame HI eq_refl)).
    destruct (loop_body env eb hb st game) as [st1 ev1]. simpl in *.
    specialize (IH _ _ Hbody).
    destruct (read_games env eb hb rest st1) as [[st2 ev2] r]. simpl in *.
    by rewrite <- !app_assoc in IH.
  - by apply Hout.
Qed.

Lemma invariant_outside (I : list Event → State → Prop) (st : State)
    (ev tr : list Event) :
  (∀ tr e, I tr st → outside_records e = true → I (tr ++ [e]) st) →
  Forall (λ e, outside_records e = true) ev →
  I tr st → I (tr ++ ev) st.
Proof.
  intros Hout Hev. revert tr.
  induction Hev as [|e ev He _ IH]; intros tr HI.
  - by rewrite app_nil_r.
  - rewrite cons_middle, app_assoc. apply IH. by apply Hout.
Qed.

Lemma process_pgn_file_invariant (I : list Event → State → Prop)
    (env : Env) (input eo ho : string) :
  (∀ tr st e, I tr st → outside_records e = true → I (tr ++ [e]) st) →
  (∀ tr st game,
     I tr st →
     I (tr ++ (loop_body env (rsplit_dot_0 eo) (rsplit_dot_0 ho) st game).2)
       (loop_body env (rsplit_dot_0 eo) (rsplit_dot_0 ho) st game).1) →
  (∀ assigned, I [] (with_engine assigned initial_state)) →
  I (process_pgn_file env input eo ho).2 (process_pgn_file env input eo ho).1.
Proof.
  intros Hout Hbody Hinit. unfold process_pgn_file.
  set (eb := rsplit_dot_0 eo) in *. set (hb := rsplit_dot_0 ho) in *.
  set (ev_start := [Print (MsgStarting input);
                    Print (MsgBatchSize PUZZLES_PER_BATCH);
                    Print (MsgBaseName Easy eb);
                    Print (MsgBaseName Hard hb)]).
  pose proof (init_engine_outside env) as Hq.
  destruct (init_engine env) as [[ev_init assigned] ok]. simpl in Hq.
  set (st0 := with_engine assigned initial_state).
  assert (H0 : I (ev_start ++ ev_init) st0).
  { apply (invariant_outside I st0 (ev_start ++ ev_init) []);
      [by eauto| |apply Hinit].
    apply Forall_app. split; [by repeat constructor|done]. }
  destruct ok; simpl negb; cbv iota.
  - assert (H1 : I ((ev_start ++ ev_init) ++ [OpenInput input]) st0)
      by by apply Hout.
    destruct (open_input env input) as [pgn_file|e].
    + pose proof (read_games_invariant I env eb hb Hout Hbody pgn_file _ _ H1)
        as H2.
      destruct (read_games env eb hb pgn_file st0) as [[st1 ev_loop] raised].
      cbn [fst snd] in *.
      apply (invariant_outside I st1
               ([CloseInput] ++ leave input eb hb st1 raised)) in H2.
      * by rewrite <- !app_assoc in H2.
      * by eauto.
      * apply Forall_app. split; [by repeat constructor|apply leave_outside].
    + apply (invariant_outside I st0 (leave input eb hb st0 (Some e))) in H1.
      * by rewrite <- !app_assoc in H1.
      * by eauto.
      * apply leave_outside.
  - apply (invariant_outside I st0 (finally st0)) in H0.
    + by rewrite <- !app_assoc in H0.
    + by eauto.
    + apply finally_outside.
Qed.

Lemma batch_sizes_app (s : Stream) (tr ev : list Event) :
  batch_sizes s (tr ++ ev) = fold_left (count_write s) ev (batch_sizes s tr).
Proof. unfold batch_sizes. by rewrite fold_left_app. Qed.

Lemma count_write_neutral (s : Stream) (ev : list Event) (acc : list nat) :
  Forall (neutral s) ev → fold_left (count_write s) ev acc = acc.
Proof.
  intros H. revert acc. induction H as [|e ev He _ IH]; intros acc; [done|].
  simpl. rewrite <- (IH acc) at 2. f_equal.
  destruct e; simpl in *; try done.
  - by rewrite decide_False.
  - destruct ok; [|done]. by rewrite decide_False.
Qed.

Lemma count_write_outside (s : Stream) (e : Event) (acc : list nat) :
  outside_records e = true → count_write s acc e = acc.
Proof. by destruct e. Qed.

Lemma opened_outside (s : Stream) (tr : list Event) (e : Event) :
  outside_records e = true → opened s (tr ++ [e]) = opened s tr.
Proof.
  intros He. rewrite opened_snoc. destruct e; try done; by rewrite app_nil_r.
Qed.

(** ** Files and lists *)

Lemma write_batch_started (env : Env) (k : nat) (s : Stream)
    (base pgn : string) (b : Batch) :
  (batch_num b = 0 → f b = None) →
  batch_num (write_batch env k s base pgn b).1 ≠ 0.
Proof.
  intros Hb. unfold write_batch, rotate, write_current.
  destruct (bool_decide (f b = None)
            || (PUZZLES_PER_BATCH <=? puzzles_in_current_batch b)) eqn:Hrot.
  - repeat case_match; simplify_eq; simpl; lia.
  - apply orb_false_iff in Hrot as [Hf _].
    apply bool_decide_eq_false in Hf.
    repeat case_match; simplify_eq; simpl; intros Hzero; by apply Hf, Hb.
Qed.

Lemma loop_body_started (env : Env) (eb hb : string) (st : State)
    (game : Game) (s : Stream) :
  started_iff_nonempty (batch_of s st) (length (list_of s st)) →
  let st' := (loop_body env eb hb st game).1 in
  started_iff_nonempty (batch_of s st') (length (list_of s st')).
Proof.
  intros [H1 H2] st'. subst st'.
  destruct (passes env (processed_puzzles_count st + 1) game) eqn:Hp.
  - destruct (passes_inv _ _ _ Hp) as (sol & rest & top & Hfen & Hm & Ht & Hb).
    rewrite (loop_body_classified env eb hb st game sol rest top) by done.
    case_bool_decide; cbv zeta; destruct s; simpl; try done.
    + pose proof (write_batch_started env (processed_puzzles_count st + 1)
                    Easy eb (string_exporter env game) (easy st) H2) as Hn.
      rewrite length_app. simpl. split; [split; [done|lia]|done].
    + pose proof (write_batch_started env (processed_puzzles_count st + 1)
                    Hard hb (string_exporter env game) (hard st) H2) as Hn.
      rewrite length_app. simpl. split; [split; [done|lia]|done].
  - destruct (loop_body_skipped env eb hb st game Hp) as (ev & -> & _).
    by destruct s.
Qed.

(** X8: a stream opens batch files exactly when its list is not empty:
    a class without a puzzle leaves no file behind, and the first puzzle
    of a class always has a file opened for it (or tried). *)
Theorem files_opened_iff_class_nonempty (env : Env) (input eo ho : string)
    (s : Stream) :
  let r := process_pgn_file env input eo ho in
  opened s r.2 = [] ↔ list_of s r.1 = [].
Proof.
  intros r.
  assert (Hst : started_iff_nonempty (batch_of s r.1)
                  (length (list_of s r.1))).
  { apply (process_pgn_file_invariant
             (λ _ st, started_iff_nonempty (batch_of s st)
                        (length (list_of s st)))).
    - done.
    - intros _ st game. apply loop_body_started.
    - intros assigned. by destruct s. }
  destruct (process_pgn_file_inv env input eo ho) as (He & Hh & _).
  fold r in He, Hh.
  assert (Ho : length (opened s r.2) = batch_num (batch_of s r.1)).
  { destruct s; [destruct He as [-> _ _ _ _ _]|destruct Hh as [-> _ _ _ _ _]];
      by rewrite length_map, length_seq. }
  destruct Hst as [Hst _].
  rewrite <- (length_zero_iff_nil (opened s r.2)), Ho, Hst.
  apply length_zero_iff_nil.
Qed.

(** ** Runs without input/output failures *)

Lemma full_batches_neutral (s : Stream) (tr ev : list Event) (b : Batch)
    (len : nat) :
  full_batches s tr b len → Forall (neutral s) ev →
  full_batches s (tr ++ ev) b len.
Proof.
  unfold full_batches. intros H Hev.
  by rewrite batch_sizes_app, count_write_neutral.
Qed.

Lemma write_batch_full (env : Env) (k : nat) (s : Stream)
    (base pgn : string) (b : Batch) (tr : list Event) (len : nat) :
  no_io_failure env →
  full_batches s tr b len →
  full_batches s (tr ++ (write_batch env k s base pgn b).2)
    (write_batch env k s base pgn b).1 (len + 1).
Proof.
  intros [Hopen Hwrite]. unfold full_batches, write_batch, rotate,
    write_current.
  rewrite batch_sizes_app, Hopen.
  destruct (batch_num b) as [|n] eqn:Hn.
  - intros (-> & Hc & Hf & ->). rewrite Hf, Hc. simpl. rewrite Hwrite.
    simpl. rewrite !decide_True by done.
    repeat split; try done; unfold PUZZLES_PER_BATCH; lia.
  - intros (Hf & Hc & -> & ->).
    destruct (f b) as [name|] eqn:Hfb; [|done].
    rewrite bool_decide_false by done. rewrite orb_false_l.
    destruct (PUZZLES_PER_BATCH <=? puzzles_in_current_batch b) eqn:Hfull.
    + apply Nat.leb_le in Hfull.
      assert (Hc' : puzzles_in_current_batch b = PUZZLES_PER_BATCH) by lia.
      simpl. rewrite Hwrite. simpl. rewrite !decide_True by done.
      rewrite Hc'.
      repeat split; try done; try (unfold PUZZLES_PER_BATCH; lia).
      by rewrite Nat.add_1_r.
    + apply Nat.leb_gt in Hfull.
      simpl. rewrite Hfb. simpl. rewrite Hwrite. simpl.
      rewrite !decide_True by done. rewrite Hn, ?Hfb.
      repeat split; try done; try lia.
      by rewrite Nat.add_1_r.
Qed.

Lemma loop_body_full (env : Env) (eb hb : string) (tr : list Event)
    (st : State) (game : Game) (s : Stream) :
  no_io_failure env →
  full_batches s tr (batch_of s st) (length (list_of s st)) →
  let r := loop_body env eb hb st game in
  full_batches s (tr ++ r.2) (batch_of s r.1) (length (list_of s r.1)).
Proof.
  intros Hno Hfull r. subst r.
  destruct (passes env (processed_puzzles_count st + 1) game) eqn:Hp.
  - destruct (passes_inv _ _ _ Hp) as (sol & rest & top & Hfen & Hm & Ht & Hb).
    rewrite (loop_body_classified env eb hb st game sol rest top) by done.
    pose proof (get_maia_top_move_events env (processed_puzzles_count st + 1)
                  (fen_of game)) as Hmaia.
    set (n := processed_puzzles_count st + 1) in *.
    set (pgn := string_exporter env game).
    case_bool_decide; cbv zeta; unfold fst at 1, snd at 1.
    + set (pre := [Print (MsgProcessing (puzzle_id n game))]
                  ++ (get_maia_top_move env n (fen_of game)).2
                  ++ [Print (MsgEasy (puzzle_id n game))]).
      assert (Hpre : Forall (neutral s) pre).
      { apply quiet_neutral. subst pre.
        repeat (apply Forall_app; split); try done; by repeat constructor. }
      replace ([Print (MsgProcessing (puzzle_id n game))]
                  ++ (get_maia_top_move env n (fen_of game)).2
                  ++ [Print (MsgEasy (puzzle_id n game))]
                  ++ (write_batch env n Easy eb pgn (easy st)).2)
        with (pre ++ (write_batch env n Easy eb pgn (easy st)).2)
        by (subst pre; by rewrite <- !app_assoc).
      rewrite app_assoc. destruct s; simpl.
      * rewrite length_app. simpl.
        apply write_batch_full; [done|]. by apply full_batches_neutral.
      * apply full_batches_neutral; [by apply full_batches_neutral|].
        by destruct (write_batch_events env n Easy eb pgn (easy st)).
    + set (pre := [Print (MsgProcessing (puzzle_id n game))]
                  ++ (get_maia_top_move env n (fen_of game)).2
                  ++ [NewBoard (fen_of game);
                      Print (MsgHard (puzzle_id n game)
                               (board_san env (fen_of game) sol)
                               (board_san env (fen_of game) top))]).
      assert (Hpre : Forall (neutral s) pre).
      { apply quiet_neutral. subst pre.
        repeat (apply Forall_app; split); try done; by repeat constructor. }
      replace ([Print (MsgProcessing (puzzle_id n game))]
                  ++ (get_maia_top_move env n (fen_of game)).2
                  ++ [NewBoard (fen_of game);
                      Print (MsgHard (puzzle_id n game)
                               (board_san env (fen_of game) sol)
                               (board_san env (fen_of game) top))]
                  ++ (write_batch env n Hard hb pgn (hard st)).2)
        with (pre ++ (write_batch env n Hard hb pgn (hard st)).2)
        by (subst pre; by rewrite <- !app_assoc).
      rewrite app_assoc. destruct s; simpl.
      * apply full_batches_neutral; [by apply full_batches_neutral|].
        by destruct (write_batch_events env n Hard hb pgn (hard st)).
      * rewrite length_app. simpl.
        apply write_batch_full; [done|]. by apply full_batches_neutral.
  - destruct (loop_body_skipped env eb hb st game Hp) as (ev & -> & Hev & _).
    simpl. destruct s; simpl; apply full_batches_neutral; try done;
      by apply quiet_neutral.
Qed.

Lemma full_batches_needed (s : Stream) (tr : list Event) (b : Batch)
    (len : nat) :
  full_batches s tr b len →
  batch_num b = files_needed len ∧ batch_sizes s tr = sizes_needed len.
Proof.
  unfold full_batches, sizes_needed, files_needed, PUZZLES_PER_BATCH.
  destruct (batch_num b) as [|k].
  - intros (-> & _ & _ & ->). done.
  - intros (_ & Hc & -> & ->). simpl Nat.sub.
    assert (Hk : (25 * k + puzzles_in_current_batch b + 24) / 25 = S k).
    { symmetry.
      apply (Nat.div_unique _ _ _ (puzzles_in_current_batch b - 1)); lia. }
    rewrite Hk. split; [done|]. f_equal. lia.
Qed.

(** X6: when no batch file fails to open and no write fails, a class of
    [len] puzzles ends with ceil(len / 25) batch files, all of them full
    (25 puzzles) but the newest, which holds the rest: between 1 and 25
    puzzles. *)
Theorem batches_are_full_without_failures (env : Env)
    (input eo ho : string) (s : Stream) :
  no_io_failure env →
  let r := process_pgn_file env input eo ho in
  let len := length (list_of s r.1) in
  batch_num (batch_of s r.1) = files_needed len
  ∧ length (opened s r.2) = files_needed len
  ∧ batch_sizes s r.2 = sizes_needed len.
Proof.
  intros Hno r len.
  assert (Hfull : full_batches s r.2 (batch_of s r.1) len).
  { apply (process_pgn_file_invariant
             (λ tr st, full_batches s tr (batch_of s st)
                         (length (list_of s st)))).
    - intros tr st e. unfold full_batches.
      intros H He. by rewrite batch_sizes_snoc, count_write_outside.
    - intros tr st game H. by apply loop_body_full.
    - intros assigned. by destruct s. }
  destruct (full_batches_needed _ _ _ _ Hfull) as [Hn Hs].
  split; [done|]. split; [|done]. rewrite <- Hn.
  destruct (process_pgn_file_inv env input eo ho) as (He & Hh & _).
  fold r in He, Hh.
  destruct s; [destruct He as [-> _ _ _ _ _]|destruct Hh as [-> _ _ _ _ _]];
    by rewrite length_map, length_seq.
Qed.

Lemma batches_are_full_without_failures_witness :
  batch_sizes Easy
    (process_pgn_file (Sample.env_many 27) "in.pgn" "easy.pgn" "hard.pgn").2
  = sizes_needed
      (length
         (list_of Easy
            (process_pgn_file (Sample.env_many 27) "in.pgn" "easy.pgn"
               "hard.pgn").1)).
Proof.
  apply (batches_are_full_without_failures (Sample.env_many 27) "in.pgn"
           "easy.pgn" "hard.pgn" Easy).
  by split.
Defined.

(** ** rsplit, read backwards *)

Lemma rsplit_last_None_inv (sep : Ascii.ascii) (s : string) :
  rsplit_last sep s = None → contains_char sep s = false.
Proof.
  induction s as [|c s IH]; [done|]. simpl.
  destruct (rsplit_last sep s); [done|].
  destruct (Ascii.eqb c sep); [done|]. intros _. by rewrite IH.
Qed.

Lemma rsplit_last_Some_inv (sep : Ascii.ascii) (s p : string) :
  rsplit_last sep s = Some p →
  ∃ ext, contains_char sep ext = false ∧ s = p +:+ String sep ext.
Proof.
  revert p. induction s as [|c s IH]; intros p; [done|]. simpl.
  destruct (rsplit_last sep s) as [p'|] eqn:Hs.
  - intros [= <-]. destruct (IH p' eq_refl) as (ext & Hext & ->).
    by exists ext.
  - destruct (Ascii.eqb c sep) eqn:Hc; [|done]. intros [= <-].
    apply Ascii.eqb_eq in Hc as ->. exists s. split; [|done].
    by apply rsplit_last_None_inv.
Qed.

(** X7: every path is its base name followed by a rest that is either
    empty, and then the path has no ['.'], or a ['.'] and an extension
    without ['.']: the base is the path cut at its last ['.'], and it is
    never longer than the path. *)
Theorem rsplit_dot_0_cuts_at_last_dot (path : string) :
  (contains_char "." path = false ∧ rsplit_dot_0 path = path)
  ∨ (contains_char "." path = true
     ∧ ∃ ext,
         contains_char "." ext = false
         ∧ path = rsplit_dot_0 path +:+ "." +:+ ext
         ∧ String.length path
           = String.length (rsplit_dot_0 path) + 1 + String.length ext).
Proof.
  unfold rsplit_dot_0.
  destruct (rsplit_last "." path) as [p|] eqn:Hp; simpl.
  - right. destruct (rsplit_last_Some_inv _ _ _ Hp) as (ext & Hext & ->).
    split.
    + clear Hp. induction p as [|c p IH]; simpl.
      * done.
      * rewrite IH. apply orb_true_r.
    + exists ext. split; [done|]. split; [done|].
      rewrite string_length_app. simpl. lia.
  - left. split; [|done]. by apply rsplit_last_None_inv.
Qed.

(** ** Output paths with the same base name *)

(** X9: the extension of an output path plays no part: when the two
    output paths have the same base name, the n-th file of the easy stream
    and the n-th file of the hard stream have the same name, so that both
    streams write to the same paths. *)
Theorem same_base_same_file_names (env : Env) (input eo ho : string)
    (n : nat) (name name' : string) :
  rsplit_dot_0 eo = rsplit_dot_0 ho →
  let tr := (process_pgn_file env input eo ho).2 in
  opened Easy tr !! n = Some name →
  opened Hard tr !! n = Some name' →
  name = name'.
Proof.
  intros Hbase tr.
  destruct (process_pgn_file_inv env input eo ho) as (He & Hh & _).
  fold tr in He, Hh.
  destruct He as [-> _ _ _ _ _], Hh as [-> _ _ _ _ _].
  intros H1 H2.
  apply nth_batch_filename in H1, H2. by rewrite H1, H2, Hbase.
Qed.

Lemma same_base_same_file_names_witness :
  "out_batch_1.pgn" = "out_batch_1.pgn".
Proof.
  apply (same_base_same_file_names Sample.env "in.pgn" "out.easy" "out.hard"
           0 "out_batch_1.pgn" "out_batch_1.pgn");
    reflexivity.
Defined.

(** ** Batch file names of different streams *)

Lemma string_app_assoc (s t u : string) : (s +:+ t) +:+ u = s +:+ t +:+ u.
Proof.
  induction s as [|c s IH]; [done|].
  change (String c ((s +:+ t) +:+ u) = String c (s +:+ t +:+ u)).
  by f_equal.
Qed.

Lemma contains_char_app (c : Ascii.ascii) (s t : string) :
  contains_char c (s +:+ t) = contains_char c s || contains_char c t.
Proof.
  induction s as [|c' s IH]; [done|].
  change (Ascii.eqb c' c || contains_char c (s +:+ t)
          = Ascii.eqb c' c || contains_char c s || contains_char c t).
  rewrite <- orb_assoc. by f_equal.
Qed.

(** The decimal form of a number holds digits only: no ['_']. *)
Lemma pretty_N_go_no_underscore (x : N) (s : string) :
  contains_char "_" s = false → contains_char "_" (pretty_N_go x s) = false.
Proof.
  revert s. induction (N.lt_wf_0 x) as [x _ IH]; intros s Hs.
  assert (x = 0 ∨ 0 < x)%N as [->|Hx] by lia.
  - by rewrite pretty_N_go_0.
  - rewrite pretty_N_go_step by done. apply IH.
    + by apply N.div_lt.
    + simpl. rewrite Hs. unfold pretty_N_char. by repeat case_match.
Qed.

Lemma pretty_nat_no_underscore (n : nat) :
  contains_char "_" (pretty n) = false.
Proof.
  unfold pretty, pretty_nat, pretty, pretty_N.
  case_decide; [done|]. by apply pretty_N_go_no_underscore.
Qed.

(** A batch file name cut at its last ['_'] gives the base name followed
    by [_batch]. *)
Lemma batch_filename_rsplit (base : string) (n : nat) :
  rsplit_last "_" (batch_filename base n) = Some (base +:+ "_batch").
Proof.
  unfold batch_filename.
  change (base +:+ "_batch_" +:+ pretty n +:+ ".pgn")
    with (base +:+ "_batch" +:+ String "_" (pretty n +:+ ".pgn")).
  rewrite <- string_app_assoc. apply rsplit_last_ext.
  by rewrite contains_char_app, pretty_nat_no_underscore.
Qed.

Lemma batch_filename_inj2 (base base' : string) (n m : nat) :
  batch_filename base n = batch_filename base' m → base = base' ∧ n = m.
Proof.
  intros H.
  assert (Hb : base = base').
  { apply (f_equal (rsplit_last "_")) in H.
    rewrite !batch_filename_rsplit in H. injection H as H.
    by apply string_app_inj_r in H. }
  subst base'. split; [done|]. by apply batch_filename_inj in H.
Qed.

(** X10: the name of a batch file tells its base name and its number: two
    batch files have the same name only when they have the same base name
    and the same number, whatever characters the base names hold. *)
Theorem batch_filename_determines_base_and_number (base base' : string)
    (n m : nat) :
  batch_filename base n = batch_filename base' m ↔ base = base' ∧ n = m.
Proof.
  split; [apply batch_filename_inj2|]. by intros [-> ->].
Qed.

(** ** What one path receives *)

Lemma at_every_event_snoc_inv (P : list Event → Event → Prop)
    (tr : list Event) (e : Event) :
  at_every_event P (tr ++ [e]) → at_every_event P tr ∧ P tr e.
Proof.
  intros H. split.
  - intros pre e' post Heq. apply (H pre e' (post ++ [e])).
    by rewrite Heq, <- app_assoc.
  - by apply (H tr e []).
Qed.

Lemma puzzles_in_file_snoc (s : Stream) (name : string) (tr : list Event)
    (e : Event) :
  puzzles_in_file s name (tr ++ [e])
  = puzzles_in_file s name tr
    + match e with
      | WriteOutput s' name' _ true =>
          if decide (s' = s ∧ name' = name) then 1 else 0
      | _ => 0
      end.
Proof.
  unfold puzzles_in_file. rewrite omap_app, length_app. f_equal.
  destruct e as [m| | |p| | |fen|b nodes| |s' name' ok|s' name' data ok|s' name']; try done.
  destruct ok; [|done]. simpl. by case_decide.
Qed.

(** Along a trace whose file events respect [batch_step_ok]: the files of
    the stream carry the numbers 1, 2, ...; no file name has received more
    than [PUZZLES_PER_BATCH] puzzles; the newest file has received what
    [batch_sizes] counts for it; and a name that was never opened has
    received nothing. *)
Lemma batch_steps_per_file (s : Stream) (base : string) (tr : list Event) :
  at_every_event (batch_step_ok s base) tr →
  opened s tr = map (batch_filename base) (seq 1 (length (opened s tr)))
  ∧ (∀ name, puzzles_in_file s name tr ≤ PUZZLES_PER_BATCH)
  ∧ (∀ name, last (opened s tr) = Some name →
             puzzles_in_file s name tr = hd 0 (batch_sizes s tr))
  ∧ (∀ name, name ∉ opened s tr → puzzles_in_file s name tr = 0).
Proof.
  induction tr as [|e tr IH] using rev_ind; intros Hsteps.
  { split; [done|]. split; [|done].
    intros name. unfold PUZZLES_PER_BATCH, puzzles_in_file. simpl. lia. }
  apply at_every_event_snoc_inv in Hsteps as [Hsteps He].
  destruct (IH Hsteps) as (Hnames & Hbound & Hlast & Hnone). clear IH.
  assert (Hquiet :
    opened s (tr ++ [e]) = opened s tr →
    batch_sizes s (tr ++ [e]) = batch_sizes s tr →
    (∀ name, puzzles_in_file s name (tr ++ [e])
             = puzzles_in_file s name tr) →
    opened s (tr ++ [e])
    = map (batch_filename base) (seq 1 (length (opened s (tr ++ [e]))))
    ∧ (∀ name, puzzles_in_file s name (tr ++ [e]) ≤ PUZZLES_PER_BATCH)
    ∧ (∀ name, last (opened s (tr ++ [e])) = Some name →
               puzzles_in_file s name (tr ++ [e])
               = hd 0 (batch_sizes s (tr ++ [e])))
    ∧ (∀ name, name ∉ opened s (tr ++ [e]) →
               puzzles_in_file s name (tr ++ [e]) = 0)).
  { intros -> -> Hp. repeat split; [done|..]; intros name; rewrite Hp; auto. }
  destruct e as [m| | |p| | |fen|b nodes| |s' name' ok|s' name' data ok|s' name'];
    try (apply Hquiet; [by rewrite opened_snoc, app_nil_r
                       |by rewrite batch_sizes_snoc
                       |intros name; rewrite puzzles_in_file_snoc; lia]).
  - (* a file is opened *)
    destruct (decide (s' = s)) as [->|Hs].
    2:{ apply Hquiet.
        - rewrite opened_snoc, decide_False by done. apply app_nil_r.
        - rewrite batch_sizes_snoc. simpl. by rewrite decide_False.
        - intros name. rewrite puzzles_in_file_snoc. lia. }
    destruct (He eq_refl) as [_ Hname].
    assert (Hfresh : name' ∉ opened s tr).
    { rewrite Hnames, Hname. intros Hin.
      apply list_elem_of_fmap in Hin as (i & Heq & Hi).
      apply batch_filename_inj in Heq. apply elem_of_seq in Hi. lia. }
    assert (Hp : ∀ name, puzzles_in_file s name (tr ++ [OpenOutput s name' ok])
                         = puzzles_in_file s name tr).
    { intros name. rewrite puzzles_in_file_snoc. lia. }
    rewrite opened_snoc, decide_True by done.
    rewrite batch_sizes_snoc. simpl. rewrite decide_True by done.
    split; [|split; [|split]].
    + rewrite length_app. simpl. rewrite seq_app, map_app. simpl.
      rewrite <- Hnames. f_equal. f_equal. rewrite Hname. f_equal. lia.
    + intros name. rewrite Hp. apply Hbound.
    + intros name. rewrite last_snoc. intros [= <-]. rewrite Hp. simpl.
      by apply Hnone.
    + intros name. rewrite not_elem_of_app. intros [Hn _]. rewrite Hp.
      by apply Hnone.
  - (* a puzzle is written *)
    destruct (decide (s' = s)) as [->|Hs].
    2:{ apply Hquiet.
        - by rewrite opened_snoc, app_nil_r.
        - rewrite batch_sizes_snoc. simpl. destruct ok; [|done].
          by rewrite decide_False.
        - intros name. rewrite puzzles_in_file_snoc. destruct ok; [|lia].
          rewrite decide_False; [lia|]. by intros [? _]. }
    destruct ok.
    2:{ apply Hquiet.
        - by rewrite opened_snoc, app_nil_r.
        - by rewrite batch_sizes_snoc.
        - intros name. rewrite puzzles_in_file_snoc. lia. }
    destruct (He eq_refl) as (_ & Hnewest & Hroom).
    assert (Hhd : hd 0 (batch_sizes s (tr ++ [WriteOutput s name' data true]))
                  = hd 0 (batch_sizes s tr) + 1).
    { rewrite batch_sizes_snoc. simpl. rewrite decide_True by done.
      destruct (batch_sizes s tr); simpl; lia. }
    assert (Hin : name' ∈ opened s tr).
    { destruct (opened s tr) as [|x l _] using rev_ind; [done|].
      rewrite last_snoc in Hnewest. injection Hnewest as ->.
      apply elem_of_app. right. by apply list_elem_of_singleton. }
    rewrite opened_snoc, app_nil_r.
    split; [done|]. split; [|split].
    + intros name. rewrite puzzles_in_file_snoc.
      case_decide as Hd.
      * destruct Hd as [_ <-]. rewrite (Hlast name' Hnewest). lia.
      * specialize (Hbound name). lia.
    + intros name Hl. rewrite Hhd, puzzles_in_file_snoc.
      assert (name = name') as -> by congruence.
      rewrite decide_True by done. by rewrite (Hlast name' Hnewest).
    + intros name Hn. rewrite puzzles_in_file_snoc.
      rewrite decide_False; [rewrite (Hnone name Hn); lia|].
      intros [_ <-]. done.
Qed.

Lemma process_pgn_file_per_file (env : Env) (input eo ho : string)
    (s : Stream) (name : string) :
  let tr := (process_pgn_file env input eo ho).2 in
  puzzles_in_file s name tr ≤ PUZZLES_PER_BATCH
  ∧ (name ∉ opened s tr → puzzles_in_file s name tr = 0).
Proof.
  intros tr.
  destruct (process_pgn_file_inv env input eo ho) as (He & Hh & _).
  fold tr in He, Hh.
  assert (Hsteps : at_every_event (batch_step_ok s (base_of s eo ho)) tr)
    by (destruct s; [by destruct He|by destruct Hh]).
  destruct (batch_steps_per_file _ _ _ Hsteps) as (_ & Hbound & _ & Hnone).
  split; [apply Hbound|apply Hnone].
Qed.

Lemma process_pgn_file_paths (env : Env) (input eo ho : string) :
  rsplit_dot_0 eo ≠ rsplit_dot_0 ho →
  let tr := (process_pgn_file env input eo ho).2 in
  (∀ name, name ∈ opened Easy tr → name ∉ opened Hard tr)
  ∧ (∀ name, puzzles_at_path name tr ≤ PUZZLES_PER_BATCH).
Proof.
  intros Hbase tr.
  assert (Hdisj : ∀ name, name ∈ opened Easy tr → name ∉ opened Hard tr).
  { destruct (process_pgn_file_inv env input eo ho) as (He & Hh & _).
    fold tr in He, Hh.
    destruct He as [-> _ _ _ _ _], Hh as [-> _ _ _ _ _].
    intros name H1 H2.
    apply list_elem_of_fmap in H1 as (i & -> & _).
    apply list_elem_of_fmap in H2 as (j & Heq & _).
    by apply batch_filename_inj2 in Heq as [Heq _]. }
  split; [done|]. intros name. unfold puzzles_at_path.
  destruct (process_pgn_file_per_file env input eo ho Easy name)
    as [Hbe Hne].
  destruct (process_pgn_file_per_file env input eo ho Hard name)
    as [Hbh Hnh].
  fold tr in Hbe, Hne, Hbh, Hnh.
  destruct (decide (name ∈ opened Easy tr)) as [Hin|Hout].
  - rewrite (Hnh (Hdisj name Hin)). lia.
  - rewrite (Hne Hout). lia.
Qed.

(** X11: when the two output paths have different base names, no path is
    opened by both streams, and no path receives more than
    [PUZZLES_PER_BATCH] puzzles from the two streams together; a path a
    stream never opened receives nothing from it. *)
Theorem distinct_bases_distinct_paths (env : Env) (input eo ho : string) :
  rsplit_dot_0 eo ≠ rsplit_dot_0 ho →
  let tr := (process_pgn_file env input eo ho).2 in
  (∀ name, name ∈ opened Easy tr → name ∉ opened Hard tr)
  ∧ (∀ name, puzzles_at_path name tr ≤ PUZZLES_PER_BATCH)
  ∧ (∀ s name, name ∉ opened s tr → puzzles_in_file s name tr = 0).
Proof.
  intros Hbase tr.
  destruct (process_pgn_file_paths env input eo ho Hbase) as [Hdisj Hb].
  split; [done|]. split; [done|].
  intros s name. apply process_pgn_file_per_file.
Qed.

Lemma distinct_bases_distinct_paths_witness :
  puzzles_at_path "easy_batch_1.pgn"
    (process_pgn_file (Sample.env_many 27) "in.pgn" "easy.pgn" "hard.pgn").2
  ≤ PUZZLES_PER_BATCH.
Proof.
  apply (distinct_bases_distinct_paths (Sample.env_many 27) "in.pgn"
           "easy.pgn" "hard.pgn").
  discriminate.
Defined.

(** ** The input file *)

Lemma input_events_none (ev : list Event) :
  Forall (λ e, is_input e = false) ev → input_events ev = [].
Proof.
  induction 1 as [|e ev He _ IH]; [done|].
  unfold input_events in *. simpl. by rewrite He.
Qed.

Lemma input_events_app (ev ev' : list Event) :
  input_events (ev ++ ev') = input_events ev ++ input_events ev'.
Proof. apply omap_app. Qed.

Lemma loop_body_no_input (env : Env) (eb hb : string) (st : State)
    (game : Game) :
  Forall (λ e, is_input e = false) (loop_body env eb hb st game).2.
Proof.
  eapply Forall_impl; [apply loop_body_events|].
  intros e [He Hr]. by destruct e.
Qed.

Lemma read_games_input_events (env : Env) (eb hb : string)
    (pgn_file : list (Result Game)) (st : State) :
  input_events (read_games env eb hb pgn_file st).1.2
  = replicate (games_read pgn_file + 1) ReadGame.
Proof.
  revert st. induction pgn_file as [|[game|e] rest IH]; intros st; [done|..].
  - simpl. pose proof (loop_body_no_input env eb hb st game) as Hev.
    destruct (loop_body env eb hb st game) as [st1 ev1]. simpl in Hev.
    specialize (IH st1).
    destruct (read_games env eb hb rest st1) as [[st2 ev2] r].
    cbn [fst snd] in *.
    change (ReadGame :: ev1 ++ ev2) with ([ReadGame] ++ ev1 ++ ev2).
    by rewrite !input_events_app, (input_events_none ev1), IH.
  - done.
Qed.

Lemma leave_no_input (input eb hb : string) (st : State)
    (raised : option Exn) :
  Forall (λ e, is_input e = false) (leave input eb hb st raised).
Proof.
  unfold leave, finally, summary, close_final.
  repeat case_match; repeat (apply Forall_app; split);
    repeat case_match; by repeat constructor.
Qed.

Lemma init_engine_no_input (env : Env) :
  Forall (λ e, is_input e = false) (init_engine env).1.1.
Proof.
  unfold init_engine. repeat case_match; simpl; by repeat constructor.
Qed.

(** X12: what happens to the input file in a run.  It is not touched when
    the engine cannot be initialised.  Otherwise it is opened once; when
    that succeeds [read_game] is called once more than there are games
    read (the last call returns [None] or raises) and the file is then
    closed, once, also when [read_game] raised; nothing is read after the
    closing and nothing before the opening. *)
Theorem input_file_opened_read_closed (env : Env) (input eo ho : string) :
  input_events (process_pgn_file env input eo ho).2
  = if (init_engine env).2 then
      match open_input env input with
      | Return pgn_file =>
          [OpenInput input]
          ++ replicate (games_read pgn_file + 1) ReadGame
          ++ [CloseInput]
      | Raise _ => [OpenInput input]
      end
    else [].
Proof.
  unfold process_pgn_file.
  set (eb := rsplit_dot_0 eo). set (hb := rsplit_dot_0 ho).
  set (ev_start := [Print (MsgStarting input);
                    Print (MsgBatchSize PUZZLES_PER_BATCH);
                    Print (MsgBaseName Easy eb);
                    Print (MsgBaseName Hard hb)]).
  pose proof (init_engine_no_input env) as Hinit.
  destruct (init_engine env) as [[ev_init assigned] ok]. simpl in Hinit.
  set (st0 := with_engine assigned initial_state).
  assert (Hstart : input_events ev_start = []) by done.
  destruct ok; simpl negb; cbv iota; cbn [snd].
  - destruct (open_input env input) as [pgn_file|e].
    + pose proof (read_games_input_events env eb hb pgn_file st0) as Hloop.
      destruct (read_games env eb hb pgn_file st0) as [[st1 ev_loop] raised].
      cbn [fst snd] in *.
      rewrite !input_events_app, Hstart, (input_events_none ev_init) by done.
      rewrite Hloop, (input_events_none (leave _ _ _ _ _))
        by apply leave_no_input.
      by rewrite app_nil_r.
    + cbn [snd].
      rewrite !input_events_app, Hstart, (input_events_none ev_init) by done.
      by rewrite (input_events_none (leave _ _ _ _ _))
        by apply leave_no_input.
  - rewrite !input_events_app, Hstart, (input_events_none ev_init) by done.
    rewrite (input_events_none (finally st0)); [done|].
    unfold finally, close_final.
    repeat (apply Forall_app; split); repeat case_match;
      by repeat constructor.
Qed.

(** ** The summary *)

Lemma loop_body_no_summary (env : Env) (eb hb : string) (st : State)
    (game : Game) :
  Forall (λ e, is_summary e = false) (loop_body env eb hb st game).2.
Proof.
  unfold loop_body, get_maia_top_move, write_batch, rotate, write_current.
  repeat case_match; simplify_eq; simpl; repeat constructor; done.
Qed.

Lemma read_games_no_summary (env : Env) (eb hb : string)
    (pgn_file : list (Result Game)) (st : State) :
  Forall (λ e, is_summary e = false) (read_games env eb hb pgn_file st).1.2.
Proof.
  revert st. induction pgn_file as [|[game|e] rest IH]; intros st.
  - by repeat constructor.
  - simpl. pose proof (loop_body_no_summary env eb hb st game) as Hev.
    destruct (loop_body env eb hb st game) as [st1 ev1]. simpl in Hev.
    specialize (IH st1).
    destruct (read_games env eb hb rest st1) as [[st2 ev2] r].
    cbn [fst snd] in *.
    constructor; [done|]. by apply Forall_app.
  - by repeat constructor.
Qed.

Lemma init_engine_no_summary (env : Env) :
  Forall (λ e, is_summary e = false) (init_engine env).1.1.
Proof.
  unfold init_engine. repeat case_match; simpl; by repeat constructor.
Qed.

Lemma finally_no_summary (st : State) :
  Forall (λ e, is_summary e = false) (finally st).
Proof.
  unfold finally, close_final.
  repeat (apply Forall_app; split); repeat case_match;
    by repeat constructor.
Qed.

Local Ltac no_summary :=
  repeat first
    [ assumption
    | apply Forall_nil_2
    | apply Forall_cons_2; [reflexivity|]
    | apply Forall_app_2 ].

(** X13: the summary is printed at the very end of a call, and only
    there, unless the function returns early: when the engine cannot be
    initialised and when the input file is not found no summary line is
    printed at all.  After any other exception of the reading (a file that
    cannot be opened for another reason, a failure of [read_game]) the
    summary of what was done so far is still printed. *)
Theorem summary_printed_unless_returned (env : Env) (input eo ho : string) :
  let r := process_pgn_file env input eo ho in
  if returns_early env input
  then Forall (λ e, is_summary e = false) r.2
  else ∃ pre,
         r.2 = pre ++ summary (rsplit_dot_0 eo) (rsplit_dot_0 ho) r.1
         ∧ Forall (λ e, is_summary e = false) pre.
Proof.
  unfold process_pgn_file, returns_early, exit_exception.
  set (eb := rsplit_dot_0 eo). set (hb := rsplit_dot_0 ho).
  set (ev_start := [Print (MsgStarting input);
                    Print (MsgBatchSize PUZZLES_PER_BATCH);
                    Print (MsgBaseName Easy eb);
                    Print (MsgBaseName Hard hb)]).
  pose proof (init_engine_no_summary env) as Hinit.
  destruct (init_engine env) as [[ev_init assigned] ok]. simpl in Hinit.
  set (st0 := with_engine assigned initial_state).
  assert (Hstart : Forall (λ e, is_summary e = false) ev_start)
    by by repeat constructor.
  destruct ok; simpl negb; cbv iota; cbn [snd orb].
  - destruct (open_input env input) as [pgn_file|e].
    + pose proof (read_games_no_summary env eb hb pgn_file st0) as Hloop.
      pose proof (read_games_lists env eb hb pgn_file st0) as (_ & _ & _ & Hr).
      destruct (read_games env eb hb pgn_file st0) as [[st1 ev_loop] raised].
      cbn [fst snd] in *. subst raised.
      pose proof (finally_no_summary st1) as Hfin.
      destruct (first_raise pgn_file) as [[m|m|m]|]; simpl leave.
      * exists (ev_start ++ ev_init ++ [OpenInput input] ++ ev_loop
                ++ [CloseInput] ++ [Print (MsgUnexpected m)] ++ finally st1).
        split; [by rewrite <- !app_assoc|].
        no_summary.
      * no_summary.
      * exists (ev_start ++ ev_init ++ [OpenInput input] ++ ev_loop
                ++ [CloseInput] ++ [Print (MsgUnexpected m)] ++ finally st1).
        split; [by rewrite <- !app_assoc|].
        no_summary.
      * exists (ev_start ++ ev_init ++ [OpenInput input] ++ ev_loop
                ++ [CloseInput] ++ finally st1).
        split; [by rewrite <- !app_assoc|].
        no_summary.
    + pose proof (finally_no_summary st0) as Hfin.
      destruct e as [m|m|m]; simpl leave; cbn [snd fst].
      * exists (ev_start ++ ev_init ++ [OpenInput input]
                ++ [Print (MsgUnexpected m)] ++ finally st0).
        split; [by rewrite <- !app_assoc|].
        no_summary.
      * no_summary.
      * exists (ev_start ++ ev_init ++ [OpenInput input]
                ++ [Print (MsgUnexpected m)] ++ finally st0).
        split; [by rewrite <- !app_assoc|].
        no_summary.
  - pose proof (finally_no_summary st0) as Hfin. no_summary.
Qed.

(** ** The script *)

Lemma ran_app (tr tr' : list MainEvent) : ran (tr ++ tr') = ran tr ++ ran tr'.
Proof. apply omap_app. Qed.

Lemma ran_map_Ran (ev : list Event) : ran (map Ran ev) = ev.
Proof.
  induction ev as [|e ev IH]; [done|].
  change (e :: ran (map Ran ev) = e :: ev). by f_equal.
Qed.

(** The script calls [process_pgn_file] at most once: on its argument or,
    without one, on the sample file once that is written. *)
Lemma ran_main (menv : MainEnv) (argv : list string) :
  ran (main menv argv)
  = if has_argument argv || sample_written menv
    then (process_pgn_file (world menv) (input_of argv) easy_puzzles_file
            hard_puzzles_file).2
    else [].
Proof.
  unfold main, write_sample, sample_written.
  destruct argv as [|a [|arg rest]]; simpl.
  - destruct (sample_open menv) as [e|], (sample_write menv) as [e'|];
      simpl; try done.
    rewrite !ran_app, ran_map_Ran. apply app_nil_r.
  - destruct (sample_open menv) as [e|], (sample_write menv) as [e'|];
      simpl; try done.
    rewrite !ran_app, ran_map_Ran. apply app_nil_r.
  - rewrite !ran_app, ran_map_Ran. apply app_nil_r.
Qed.

(** X14: the batch files of the script.  Whatever the arguments and the
    world, the n-th file the script opens for the easy puzzles is
    [easy_puzzles_output_batch_n.pgn] and the n-th for the hard ones
    [hard_puzzles_output_batch_n.pgn]; no path is opened by both streams;
    no path receives more than [PUZZLES_PER_BATCH] puzzles; and the sample
    input file is never opened as a batch file. *)
Theorem script_batch_files (menv : MainEnv) (argv : list string) :
  let tr := ran (main menv argv) in
  (∀ n name,
     opened Easy tr !! n = Some name →
     name = "easy_puzzles_output_batch_" +:+ pretty (n + 1) +:+ ".pgn")
  ∧ (∀ n name,
       opened Hard tr !! n = Some name →
       name = "hard_puzzles_output_batch_" +:+ pretty (n + 1) +:+ ".pgn")
  ∧ (∀ name, name ∈ opened Easy tr → name ∉ opened Hard tr)
  ∧ (∀ name, puzzles_at_path name tr ≤ PUZZLES_PER_BATCH)
  ∧ (∀ s, sample_puzzles_file ∉ opened s tr).
Proof.
  intros tr. subst tr. rewrite ran_main.
  destruct (has_argument argv || sample_written menv).
  2:{ repeat split; try done.
      - intros name _. apply not_elem_of_nil.
      - intros name. unfold PUZZLES_PER_BATCH. cbn. lia.
      - intros s. apply not_elem_of_nil. }
  set (input := input_of argv).
  destruct (process_pgn_file_inv (world menv) input easy_puzzles_file
              hard_puzzles_file) as (He & Hh & _).
  destruct (process_pgn_file_paths (world menv) input easy_puzzles_file
              hard_puzzles_file) as [Hdisj Hbound]; [discriminate|].
  destruct He as [He _ _ _ _ _], Hh as [Hh _ _ _ _ _].
  split; [|split; [|split; [done|split; [done|]]]].
  - intros n name. rewrite He. intros H.
    by apply nth_batch_filename in H.
  - intros n name. rewrite Hh. intros H.
    by apply nth_batch_filename in H.
  - intros s Hin. apply list_elem_of_lookup in Hin as [n Hn].
    destruct s; [rewrite He in Hn|rewrite Hh in Hn];
      apply nth_batch_filename in Hn; discriminate.
Qed.

Lemma sample_events_app (tr tr' : list MainEvent) :
  sample_events (tr ++ tr') = sample_events tr ++ sample_events tr'.
Proof. apply omap_app. Qed.

Lemma map_Ran_no_sample (ev : list Event) :
  Forall (λ e, is_sample_event e = false) (map Ran ev).
Proof. apply Forall_fmap, Forall_true. done. Qed.

Lemma sample_events_none (tr : list MainEvent) :
  Forall (λ e, is_sample_event e = false) tr → sample_events tr = [].
Proof.
  induction 1 as [|e tr He _ IH]; [done|].
  unfold sample_events in *. simpl. by rewrite He.
Qed.

Lemma Exit_not_ran (ev : list Event) : Exit ∉ map Ran ev.
Proof. intros H. by apply list_elem_of_fmap in H as (e & ? & _). Qed.

(** X15: the control flow of the script.  [process_pgn_file] is called
    at most once, on the argument of the command line or, without one, on
    the sample file; it is not called when the sample file cannot be
    written, and then the script ends with [exit()].  With an argument the
    sample file is not touched; without one it is opened once, under its
    own name, written with the sample text and closed (also when the
    writing fails), all of this before [process_pgn_file] starts. *)
Theorem script_calls_process_once (menv : MainEnv) (argv : list string) :
  let tr := main menv argv in
  let goes := has_argument argv || sample_written menv in
  ran tr
  = (if goes
     then (process_pgn_file (world menv) (input_of argv) easy_puzzles_file
             hard_puzzles_file).2
     else [])
  ∧ sample_events tr
    = (if has_argument argv then []
       else OpenSample sample_puzzles_file
              (bool_decide (sample_open menv = None))
            :: match sample_open menv with
               | None =>
                   [WriteSample sample_puzzles_file pgn_multi_example
                      (bool_decide (sample_write menv = None));
                    CloseSample sample_puzzles_file]
               | Some _ => []
               end)
  ∧ (∃ head rest,
       tr = head ++ rest
       ∧ ran head = []
       ∧ Forall (λ e, is_sample_event e = false) rest)
  ∧ (Exit ∈ tr ↔ goes = false)
  ∧ (Exit ∈ tr → last tr = Some Exit).
Proof.
  intros tr goes. split; [apply ran_main|].
  subst tr goes. unfold main, write_sample, sample_written.
  destruct argv as [|a [|arg rest]]; simpl;
    [destruct (sample_open menv) as [e|] eqn:Ho;
       [|destruct (sample_write menv) as [e'|] eqn:Hw]; simpl ..|].
  all: try (* the sample file cannot be opened or written *)
    (split; [done|];
     split; [eexists _, []; split; [by rewrite app_nil_r|];
             split; [done|apply Forall_nil_2]|];
     split; [split; [done|intros _; rewrite !elem_of_cons; auto 10]|done]).
  all: (* [process_pgn_file] is called *)
    match goal with
    | |- context [map Ran ?run ++ [?final]] =>
        set (body := map Ran run ++ [final]);
        assert (Hbody : Forall (λ e, is_sample_event e = false) body)
          by (apply Forall_app_2; [apply map_Ran_no_sample|];
              apply Forall_cons_2; [done|apply Forall_nil_2]);
        assert (Hexit : Exit ∉ body)
          by (intros Hin; apply elem_of_app in Hin as [Hin|Hin];
              [by apply Exit_not_ran in Hin|];
              by apply list_elem_of_singleton in Hin)
    end.
  all: split; [by rewrite ?(sample_events_none body)|].
  1,2: split;
    [by exists [MainPrint (MsgNoInputFile sample_puzzles_file);
                OpenSample sample_puzzles_file true;
                WriteSample sample_puzzles_file pgn_multi_example true;
                CloseSample sample_puzzles_file;
                MainPrint (MsgSampleWritten sample_puzzles_file)], body|].
  3: split; [by exists [MainPrint (MsgUserFile arg)], body|].
  all: match goal with
       | |- (Exit ∈ ?l ↔ _) ∧ _ =>
           assert (Hno : Exit ∉ l)
             by (rewrite !elem_of_cons; intros Hin;
                 repeat (destruct Hin as [Hin|Hin]; [done|]); done)
       end.
  all: split; [split; [by intros H; destruct Hno|done]|].
  all: by intros H; destruct Hno.
Qed.
